(** * hekametrics: go-metrics -> Heka exporter

    A shallow embedding of [hekalogger.go]: the snapshot encoder
    ([make_message]), the reconnecting sender ([HekaClient.write]), the
    constructor ([NewHekaClient]), [Stop] and the flush loop ([LogHeka]),
    followed by the properties of the specification that were checked
    against them. *)

From Stdlib Require Import List String Ascii ZArith Lia Bool Arith Floats.
Import ListNotations.
Set Warnings "-inexact-float".

Local Open Scope string_scope.
Local Open Scope list_scope.
Local Open Scope nat_scope.

(** ** Go values used by the program *)

(** Go's [error]: [None] is [nil], [Some msg] an error with its text. *)
Definition error := string.

Inductive result (A : Type) : Type :=
| Ok (a : A)
| Err (e : error).
Arguments Ok {A} a.
Arguments Err {A} e.

Definition bytes := list Byte.byte.
Definition float64 := float.
Definition int64 := Z.
Definition int32 := Z.

(** [int32(x)] of a Go [int]: the low 32 bits, read as signed. *)
Definition to_int32 (x : Z) : int32 :=
  ((x + 2147483648) mod 4294967296 - 2147483648)%Z.

(** [net/url]'s [URL], with the two entries the client reads. *)
Record URL : Type := mkURL {
  Scheme : string;
  Host : string
}.

(** Arguments handed to the package-level [logger]; the calls are kept as
    they are written, unrendered.  Format strings are the source's literals
    character for character: the two characters of the escape [\n] stand
    for the line feed Go reads there. *)
Inductive log_arg : Type :=
| LStr (s : string)
| LFloat (f : float64)
| LErr (e : error)
| LURL (u : URL).

Inductive log_call : Type :=
| Println (args : list log_arg)
| Printf (format : string) (args : list log_arg).

(** ** heka's [message] package, as far as the exporter touches it *)

Inductive Field_ValueType : Type :=
| Field_STRING | Field_BYTES | Field_INTEGER | Field_DOUBLE | Field_BOOL.

Record Field : Type := mkField {
  Name : string;
  ValueType : Field_ValueType;
  Representation : string;
  ValueInteger : list int64;
  ValueDouble : list float64
}.

(** [message.Message]: the envelope entries are pointers in Go, unset
    ([nil]) in [&message.Message{}]. *)
Record Message : Type := mkMessage {
  Uuid : option bytes;
  Timestamp : option int64;
  Type_ : option string;
  Logger : option string;
  Severity : option int32;
  Payload : option string;
  Pid : option int32;
  Hostname : option string;
  Fields : list Field
}.

Definition empty_Message : Message :=
  mkMessage None None None None None None None None [].

Definition with_Fields (fs : list Field) (m : Message) : Message :=
  mkMessage (Uuid m) (Timestamp m) (Type_ m) (Logger m) (Severity m)
            (Payload m) (Pid m) (Hostname m) fs.

(** [msg.AddField(f)] appends; it never looks at the names already there. *)
Definition AddField (f : Field) (m : Message) : Message :=
  with_Fields (Fields m ++ [f]) m.

(** [message.NewInt64Field(m, name, val, representation)]. *)
Definition NewInt64Field (m : Message) (name : string) (val : int64)
    (representation : string) : Message :=
  AddField (mkField name Field_INTEGER representation [val] []) m.

(** The [interface{}] argument of [message.NewField]: the exporter only
    ever passes a [float64]; any kind the package has no case for is
    rejected. *)
Inductive go_value : Type :=
| VInt64 (z : int64)
| VFloat64 (f : float64)
| VUnsupported (kind : string).

Definition NewField (name : string) (value : go_value)
    (representation : string) : result Field :=
  match value with
  | VInt64 z => Ok (mkField name Field_INTEGER representation [z] [])
  | VFloat64 f => Ok (mkField name Field_DOUBLE representation [] [f])
  | VUnsupported kind => Err ("unsupported value kind: " ++ kind)%string
  end.

(** ** go-metrics: the registry as [Each] walks it *)

Record HistogramSnapshot : Type := mkHistogram {
  h_Percentiles : list float64 -> list float64;
  h_Mean : float64;
  h_StdDev : float64;
  h_Count : int64;
  h_Min : int64;
  h_Max : int64
}.

Record MeterSnapshot : Type := mkMeter {
  m_Count : int64;
  m_Rate1 : float64;
  m_Rate5 : float64;
  m_Rate15 : float64;
  m_RateMean : float64
}.

Record TimerSnapshot : Type := mkTimer {
  t_Percentiles : list float64 -> list float64;
  t_Mean : float64;
  t_StdDev : float64;
  t_Rate1 : float64;
  t_Rate5 : float64;
  t_Rate15 : float64;
  t_RateMean : float64;
  t_Count : int64;
  t_Min : int64;
  t_Max : int64
}.

(** The dynamic type found by the type switch.  The six interfaces
    differ in the result type of [Snapshot()], so a value satisfies at most
    one of them; anything else a registry may hold (a healthcheck, an EWMA)
    matches no case. *)
Inductive metric : Type :=
| Counter (count : int64)
| Gauge (value : int64)
| GaugeFloat64 (value : float64)
| Histogram (h : HistogramSnapshot)
| Meter (m : MeterSnapshot)
| Timer (t : TimerSnapshot)
| OtherMetric.

(** The pairs in the order in which [r.Each] hands them to its callback. *)
Definition Registry := list (string * metric).

(** ** [make_message] *)

(** The message under construction and the lines logged so far. *)
Definition enc := (Message * list log_call)%type.

Definition enc_add (f : Field) (st : enc) : enc := (AddField f (fst st), snd st).
Definition enc_int64 (name : string) (val : int64) (repr : string) (st : enc) : enc :=
  (NewInt64Field (fst st) name val repr, snd st).
Definition enc_log (l : log_call) (st : enc) : enc := (fst st, snd st ++ [l]).

(** [fmt.Sprintf("%s.%s", pref, n)] *)
Definition dotted (pref n : string) : string := (pref ++ "." ++ n)%string.

(** The body of [for i, n := range names] in [add_float_mapping], from
    index [i] on. *)
Fixpoint add_float_mapping_from (i : nat) (pref : string) (names : list string)
    (vals : list float64) (st : enc) : enc :=
  match names with
  | [] => st
  | n :: rest =>
      let n := dotted pref n in
      if List.length vals <? i + 1 then
        add_float_mapping_from (S i) pref rest vals
          (enc_log (Println [LStr "skipping: %s no value\n"; LStr n]) st)
      else
        let v := nth i vals 0%float in
        match NewField n (VFloat64 v) "" with
        | Ok f => add_float_mapping_from (S i) pref rest vals (enc_add f st)
        | Err e =>
            add_float_mapping_from (S i) pref rest vals
              (enc_log (Println [LStr "skipping: %s %v: %v\n"; LStr n; LFloat v; LErr e]) st)
        end
  end.

Definition add_float_mapping (pref : string) (names : list string)
    (vals : list float64) (st : enc) : enc :=
  add_float_mapping_from 0 pref names vals st.

(** [for i, n := range names { message.NewInt64Field(msg, f(n), vals_i[i], repr(f(n))) }]
    over the three-element literals [names] and [vals_i]. *)
Fixpoint add_int_fields_from (i : nat) (pref : string) (names : list string)
    (vals_i : list int64) (repr : string -> string) (st : enc) : enc :=
  match names with
  | [] => st
  | n :: rest =>
      let n := dotted pref n in
      add_int_fields_from (S i) pref rest vals_i repr
        (enc_int64 n (nth i vals_i 0%Z) (repr n) st)
  end.

Definition canonical_percentiles : list float64 :=
  [0.5; 0.75; 0.95; 0.99; 0.999]%float.

Definition histogram_names : list string :=
  ["50-percentile"; "75-percentile"; "95-percentile"; "99-percentile";
   "999-percentile"; "mean"; "std-dev"].

Definition meter_names : list string :=
  ["one-minute"; "five-minute"; "fifteen-minute"; "mean"].

Definition timer_names : list string :=
  ["50-percentile"; "75-percentile"; "95-percentile"; "99-percentile";
   "999-percentile"; "mean"; "std-dev"; "one-minute"; "five-minute";
   "fifteen-minute"; "mean-rate"].

Definition int_names : list string := ["count"; "min"; "max"].

(** The callback given to [r.Each]. *)
Definition each (name : string) (i : metric) (st : enc) : enc :=
  match i with
  | Counter count => enc_int64 name count "" st
  | Gauge value => enc_int64 name value "" st
  | GaugeFloat64 value =>
      match NewField name (VFloat64 value) "" with
      | Ok f => enc_add f st
      | Err e =>
          enc_log (Println [LStr "skipping: %s %v: %v\n"; LStr name; LFloat value; LErr e]) st
      end
  | Histogram h =>
      let vals_fl := h_Percentiles h canonical_percentiles in
      let vals_fl := vals_fl ++ [h_Mean h; h_StdDev h] in
      let st := add_float_mapping (name ++ ".histogram") histogram_names vals_fl st in
      let vals_i := [h_Count h; h_Min h; h_Max h] in
      add_int_fields_from 0 (name ++ ".histogram") int_names vals_i (fun n => n) st
  | Meter m =>
      let st := enc_int64 (name ++ ".count") (m_Count m) "" st in
      let vals_fl := [m_Rate1 m; m_Rate5 m; m_Rate15 m; m_RateMean m] in
      add_float_mapping name meter_names vals_fl st
  | Timer h =>
      let vals_fl := t_Percentiles h canonical_percentiles in
      let vals_fl := vals_fl ++ [t_Mean h; t_StdDev h; t_Rate1 h; t_Rate5 h;
                                 t_Rate15 h; t_RateMean h] in
      let st := add_float_mapping (name ++ ".timer") timer_names vals_fl st in
      let vals_i := [t_Count h; t_Min h; t_Max h] in
      add_int_fields_from 0 (name ++ ".timer") int_names vals_i (fun _ => "") st
  | OtherMetric => st
  end.

Fixpoint Each (r : Registry) (st : enc) : enc :=
  match r with
  | [] => st
  | (name, i) :: rest => Each rest (each name i st)
  end.

Definition make_message_log (r : Registry) : enc := Each r (empty_Message, []).

Definition make_message (r : Registry) : Message := fst (make_message_log r).

(** ** The outside world *)

(** A network connection handed out by [client.NewNetworkSender]. *)
Definition conn := nat.

(** What the program does to the outside, in the order it does it, with
    what came back. *)
Inductive event : Type :=
| EvLog (l : log_call)
| EvDial (scheme host : string) (r : result conn)
| EvClose (c : conn)
| EvSend (c : conn) (b : bytes) (r : option error)
| EvEncode (m : Message) (r : option error).

(** Everything the package calls but does not define.  The network and the
    clock may answer differently each time: they see what has happened so
    far. *)
Record World : Type := mkWorld {
  ParseRequestURI : string -> result URL;
  Getpid : Z;
  os_Hostname : result string;
  NewNetworkSender : list event -> string -> string -> result conn;
  SendMessage : list event -> conn -> bytes -> option error;
  EncodeMessageStream : Message -> bytes -> bytes * option error;
  UnixNano : list event -> int64;
  NewRandom : list event -> bytes
}.

(** A registry is shared with the goroutines that update it: what [Each]
    finds depends on when it runs. *)
Definition RegistryRef := list event -> Registry.

(** ** Channels, as far as [stop] needs them *)

Inductive chan : Type :=
| ChanNil
| ChanOpen
| ChanClosed.

(** ** A state monad with panics *)

Inductive outcome (A : Type) : Type :=
| Return (a : A)
| Panic (msg : string).
Arguments Return {A} a.
Arguments Panic {A} msg.

Definition M (S A : Type) : Type := S -> outcome A * S.

Definition ret {S A : Type} (a : A) : M S A := fun s => (Return a, s).

Definition bind {S A B : Type} (m : M S A) (k : A -> M S B) : M S B :=
  fun s =>
    match m s with
    | (Return a, s') => k a s'
    | (Panic msg, s') => (Panic msg, s')
    end.

Declare Scope go_scope.
Delimit Scope go_scope with go.
Notation "x <- m ;; k" := (bind m (fun x => k))
  (at level 100, m at next level, right associativity) : go_scope.
Notation "m ;; k" := (bind m (fun _ => k))
  (at level 100, right associativity) : go_scope.
Local Open Scope go_scope.

Definition panic {S A : Type} (msg : string) : M S A := fun s => (Panic msg, s).

(** ** [HekaClient] *)

(** The [client] entry of the struct is never assigned or read, and the
    [encoder] has no state of its own: its one method is
    [EncodeMessageStream] of the world. *)
Record HekaClient : Type := mkHekaClient {
  pid : int32;
  hostname : string;
  msgtype : string;
  sender : option conn;
  connect_s : URL;
  stop : chan
}.

Definition with_sender (s : option conn) (hc : HekaClient) : HekaClient :=
  mkHekaClient (pid hc) (hostname hc) (msgtype hc) s (connect_s hc) (stop hc).

Definition with_stop (c : chan) (hc : HekaClient) : HekaClient :=
  mkHekaClient (pid hc) (hostname hc) (msgtype hc) (sender hc) (connect_s hc) c.

(** A method runs on its receiver and the trace. *)
Record state : Type := mkState {
  hc : HekaClient;
  trace : list event
}.

Definition Method := M state.
Definition IO := M (list event).

Definition emit (e : event) : Method unit :=
  fun st => (Return tt, mkState (hc st) (trace st ++ [e])).

Definition logger (l : log_call) : Method unit := emit (EvLog l).

Definition get_hc : Method HekaClient := fun st => (Return (hc st), st).

Definition set_sender (s : option conn) : Method unit :=
  fun st => (Return tt, mkState (with_sender s (hc st)) (trace st)).

Definition get_trace : Method (list event) := fun st => (Return (trace st), st).

(** ** Envelope setters of [message.Message] *)

Definition SetTimestamp (v : int64) (m : Message) : Message :=
  mkMessage (Uuid m) (Some v) (Type_ m) (Logger m) (Severity m) (Payload m)
            (Pid m) (Hostname m) (Fields m).
Definition SetUuid (v : bytes) (m : Message) : Message :=
  mkMessage (Some v) (Timestamp m) (Type_ m) (Logger m) (Severity m) (Payload m)
            (Pid m) (Hostname m) (Fields m).
Definition SetLogger (v : string) (m : Message) : Message :=
  mkMessage (Uuid m) (Timestamp m) (Type_ m) (Some v) (Severity m) (Payload m)
            (Pid m) (Hostname m) (Fields m).
Definition SetType (v : string) (m : Message) : Message :=
  mkMessage (Uuid m) (Timestamp m) (Some v) (Logger m) (Severity m) (Payload m)
            (Pid m) (Hostname m) (Fields m).
Definition SetPid (v : int32) (m : Message) : Message :=
  mkMessage (Uuid m) (Timestamp m) (Type_ m) (Logger m) (Severity m) (Payload m)
            (Some v) (Hostname m) (Fields m).
Definition SetSeverity (v : int32) (m : Message) : Message :=
  mkMessage (Uuid m) (Timestamp m) (Type_ m) (Logger m) (Some v) (Payload m)
            (Pid m) (Hostname m) (Fields m).
Definition SetHostname (v : string) (m : Message) : Message :=
  mkMessage (Uuid m) (Timestamp m) (Type_ m) (Logger m) (Severity m) (Payload m)
            (Pid m) (Some v) (Fields m).
Definition SetPayload (v : string) (m : Message) : Message :=
  mkMessage (Uuid m) (Timestamp m) (Type_ m) (Logger m) (Severity m) (Some v)
            (Pid m) (Hostname m) (Fields m).

(** What wakes the [select] of the flush loop: another goroutine calling
    [Stop], or the channel of [time.After(d)] delivering. *)
Inductive wait_event : Type :=
| StopCalled
| TimerFired.

(** How a run of [LogHeka] over a finite schedule ends: it returned, or it
    is blocked in [select] with nothing left to wake it. *)
Inductive loop_end : Type :=
| Exited
| Waiting.

Section Client.

Variable w : World.

(** *** [NewHekaClient] *)

Definition scheme_error (scheme : string) : error :=
  ("scheme: '" ++ scheme ++
   "' not supported, try 'tcp://<host>:<port>' or 'udp://<host>:<port>'")%string.

(** The two results are Go's [(hc, err)]; [err] is a named result, so the
    error of [os.Hostname()] is still in it at the final bare [return]. *)
Definition NewHekaClient (connect msgtype : string)
    : IO (option HekaClient * option error) :=
  match ParseRequestURI w connect with
  | Err e => ret (None, Some e)
  | Ok u =>
      if ((Scheme u =? "tcp") || (Scheme u =? "udp"))%string then
        let (name, err) :=
          match os_Hostname w with
          | Ok name => (name, None)
          | Err e => ("<no hostname>", Some e)
          end in
        ret (Some (mkHekaClient (to_int32 (Getpid w)) name msgtype None u ChanOpen),
             err)
      else ret (None, Some (scheme_error (Scheme u)))
  end.

(** *** [write] *)

(** The closure [reconnect] inside [write]. *)
Definition reconnect : Method (option error) :=
  h <- get_hc ;;
  match sender h with
  | Some c => emit (EvClose c) ;; set_sender None
  | None => ret tt
  end ;;
  logger (Printf "Connecting: %s\n" [LURL (connect_s h)]) ;;
  tr <- get_trace ;;
  let r := NewNetworkSender w tr (Scheme (connect_s h)) (Host (connect_s h)) in
  emit (EvDial (Scheme (connect_s h)) (Host (connect_s h)) r) ;;
  match r with
  | Ok c => set_sender (Some c) ;; ret None
  | Err e =>
      set_sender None ;;
      logger (Printf "Err Connecting: %s %v\n" [LURL (connect_s h); LErr e]) ;;
      ret (Some e)
  end.

(** [hc.sender.SendMessage(b)]: a method call on a nil interface panics. *)
Definition sender_SendMessage (b : bytes) : Method (option error) :=
  h <- get_hc ;;
  match sender h with
  | None => panic "invalid memory address or nil pointer dereference"
  | Some c =>
      tr <- get_trace ;;
      let r := SendMessage w tr c b in
      emit (EvSend c b r) ;;
      ret r
  end.

Definition write (b : bytes) : Method (option error) :=
  h <- get_hc ;;
  err <- match sender h with
         | None => reconnect
         | Some _ => ret None
         end ;;
  match err with
  | Some e => ret (Some e)
  | None =>
      err <- sender_SendMessage b ;;
      match err with
      | Some e =>
          logger (Printf "Inject: [error] send message: %s\n" [LErr e]) ;;
          err <- reconnect ;;
          match err with
          | Some e => ret (Some e)
          | None =>
              err <- sender_SendMessage b ;;
              match err with
              | Some e => ret (Some e)
              | None => ret err
              end
          end
      | None => ret err
      end
  end.

(** *** [Stop] *)

(** [close(hc.stop)] *)
Definition Stop : Method unit :=
  fun st =>
    match stop (hc st) with
    | ChanOpen => (Return tt, mkState (with_stop ChanClosed (hc st)) (trace st))
    | ChanClosed => (Panic "close of closed channel", st)
    | ChanNil => (Panic "close of nil channel", st)
    end.

(** *** [LogHeka] *)

Fixpoint emit_all (es : list event) : Method unit :=
  match es with
  | [] => ret tt
  | e :: rest => emit e ;; emit_all rest
  end.

(** The loop body after the [select]: build, stamp, encode, write.  The
    result is [stream], which lives across iterations. *)
Definition flush (r : RegistryRef) (stream : bytes) : Method bytes :=
  h <- get_hc ;;
  tr <- get_trace ;;
  let st := make_message_log (r tr) in
  emit_all (map EvLog (snd st)) ;;
  let msg := fst st in
  tr <- get_trace ;;
  let msg := SetTimestamp (UnixNano w tr) msg in
  let msg := SetUuid (NewRandom w tr) msg in
  let msg := SetLogger "go-metrics" msg in
  let msg := SetType (msgtype h) msg in
  let msg := SetPid (pid h) msg in
  let msg := SetSeverity 100%Z msg in
  let msg := SetHostname (hostname h) msg in
  let msg := SetPayload "" msg in
  let out := EncodeMessageStream w msg stream in
  let stream := fst out in
  emit (EvEncode msg (snd out)) ;;
  match snd out with
  | Some e => logger (Printf "Inject: [error] encode message: %s\n" [LErr e])
  | None => ret tt
  end ;;
  err <- write stream ;;
  match err with
  | Some e => logger (Printf "Inject: [error] send message: %s\n" [LErr e])
  | None => ret tt
  end ;;
  ret stream.

(** [for running { select {...}; body }].  A receive on the closed [stop]
    channel is ready at once and yields [running = false]; nobody ever
    sends on it, so while it is open (or nil) only the schedule can wake
    the loop.  The body runs after either case, and only then is
    [running] looked at again. *)
Fixpoint LogHeka_from (r : RegistryRef) (sched : list wait_event)
    (stream : bytes) : Method loop_end :=
  fun st =>
    match stop (hc st) with
    | ChanClosed => (flush r stream ;; ret Exited) st
    | _ =>
        match sched with
        | [] => (Return Waiting, st)
        | StopCalled :: _ => (Stop ;; flush r stream ;; ret Exited) st
        | TimerFired :: rest =>
            (stream <- flush r stream ;; LogHeka_from r rest stream) st
        end
    end.

(** [d] only sets when the timer fires, which the schedule tells.  [d] is
    taken positive: the channel of a fresh [time.After(d)] is not ready when
    the [select] is entered, so a closed [stop] is the only ready case
    there.  With [d <= 0] Go may pick either case and make further passes
    before it returns. *)
Definition LogHeka (r : RegistryRef) (d : Z) (sched : list wait_event)
    : Method loop_end :=
  LogHeka_from r sched [].

End Client.

(** ** Vocabulary of the statements *)

Definition float_field (pref n : string) (v : float64) : Field :=
  mkField (dotted pref n) Field_DOUBLE "" [] [v].

Definition int_field (name : string) (v : int64) (repr : string) : Field :=
  mkField name Field_INTEGER repr [v] [].

(** [fs] appended to the fields and [ls] to the log. *)
Definition enc_extend (fs : list Field) (ls : list log_call) (st : enc) : enc :=
  (with_Fields (Fields (fst st) ++ fs) (fst st), snd st ++ ls).

(** The three integer fields of a histogram or timer. *)
Definition int_fields (pref : string) (c mn mx : int64) (repr : string -> string)
    : list Field :=
  [int_field (dotted pref "count") c (repr (dotted pref "count"));
   int_field (dotted pref "min") mn (repr (dotted pref "min"));
   int_field (dotted pref "max") mx (repr (dotted pref "max"))].

(** The fields one registry entry contributes. *)
Definition metric_fields (name : string) (i : metric) : list Field :=
  Fields (fst (each name i (empty_Message, []))).

Definition registry_fields (r : Registry) : list Field :=
  flat_map (fun p => metric_fields (fst p) (snd p)) r.

Definition field_names (m : Message) : list string := map Name (Fields m).

(** The line [add_float_mapping] logs for a name it has no value for. *)
Definition skip_line (pref n : string) : log_call :=
  Println [LStr "skipping: %s no value\n"; LStr (dotted pref n)].

Fixpoint ascending (l : list float64) : bool :=
  match l with
  | a :: (b :: _) as rest => PrimFloat.ltb a b && ascending rest
  | _ => true
  end.

(** [m] is [n] followed by a dot and some suffix. *)
Definition dotted_extension (n m : string) : bool :=
  String.prefix (n ++ ".") m.

(** No name of the list is another name of the list followed by a dot and
    some suffix. *)
Definition no_dotted_extensions (names : list string) : bool :=
  forallb (fun n => forallb (fun m => negb (dotted_extension n m)) names) names.

(** A tail is what follows the metric's name in a field name: nothing, or
    something that starts with a dot. *)
Definition tail_ok (s : string) : Prop :=
  s = EmptyString \/ exists s', s = String "." s'.

Definition is_dial (e : event) : bool :=
  match e with EvDial _ _ _ => true | _ => false end.
Definition is_send (e : event) : bool :=
  match e with EvSend _ _ _ => true | _ => false end.
Definition is_encode (e : event) : bool :=
  match e with EvEncode _ _ => true | _ => false end.

Definition count (p : event -> bool) (tr : list event) : nat :=
  List.length (filter p tr).

(** An event that, if it is a transmission, transmits [b]. *)
Definition sends_only (b : bytes) (e : event) : Prop :=
  match e with
  | EvSend _ b' _ => b' = b
  | _ => True
  end.

(** Connected: the client holds a connection; Disconnected: [sender] is nil. *)
Definition Connected (h : HekaClient) : Prop := sender h <> None.
Definition Disconnected (h : HekaClient) : Prop := sender h = None.

(** ** Concrete inputs used below *)

Definition example_histogram : HistogramSnapshot :=
  mkHistogram (map (fun p => PrimFloat.mul p 100%float)) 50%float 20%float
              10%Z 1%Z 100%Z.

Definition example_meter : MeterSnapshot :=
  mkMeter 10%Z 2%float 1.5%float 1.25%float 1.75%float.

(** The timer of the specification's scenario: count 10, min 1, max 100,
    mean 50.0, standard deviation 20.0, one-minute rate 2.0. *)
Definition example_timer : TimerSnapshot :=
  mkTimer (map (fun p => PrimFloat.mul p 100%float)) 50%float 20%float
          2%float 1.5%float 1.25%float 1.75%float 10%Z 1%Z 100%Z.

(** Two distinct metric names, one of which is a field name of the other. *)
Definition clash_registry : Registry :=
  [("a", Meter example_meter); ("a.count", Counter 1%Z)].

(** The registry of the specification's example, with a histogram beside
    it: names with dots, none of them extending another. *)
Definition dotted_registry : Registry :=
  [("requests", Counter 42%Z); ("cpu.load", GaugeFloat64 0.73%float);
   ("db.latency", Histogram example_histogram)].

Definition dot_free_registry : Registry :=
  [("requests", Counter 42%Z); ("latency", Histogram example_histogram);
   ("hits", Meter example_meter); ("db", Timer example_timer)].

(** A stand-in for [url.ParseRequestURI], enough for [scheme://host:port]. *)
Definition split_scheme (s : string) : result URL :=
  match String.index 0 "://" s with
  | Some i =>
      Ok (mkURL (String.substring 0 i s)
                (String.substring (i + 3) (String.length s - (i + 3)) s))
  | None => Err "invalid URI for request"
  end.

(** Encodes any message of at most one field to two framing bytes; a larger
    one is refused and the buffer left as it was. *)
Definition small_encoder (m : Message) (old : bytes) : bytes * option error :=
  if List.length (Fields m) <=? 1
  then ([Byte.x1e; Byte.x1f], None)
  else (old, Some "Message too big").

(** A world whose network answers by position: the [n]-th dial gets
    [dials n], the [n]-th transmission [sends n] (counting from 0). *)
Definition scripted_world (dials : nat -> result conn) (sends : nat -> option error)
    : World :=
  mkWorld split_scheme 4242%Z (Ok "web1")
          (fun tr _ _ => dials (count is_dial tr))
          (fun tr _ _ => sends (count is_send tr))
          small_encoder
          (fun tr => (1400000000000000000 + Z.of_nat (List.length tr))%Z)
          (fun tr => [Byte.x2a]).

(** Every dial succeeds (with a fresh connection), every transmission works. *)
Definition good_world : World :=
  scripted_world (fun n => Ok (S n)) (fun _ => None).

(** Every dial succeeds, no transmission ever does. *)
Definition dead_peer_world : World :=
  scripted_world (fun n => Ok (S n)) (fun _ => Some "broken pipe").

(** Every dial succeeds, only the first transmission fails. *)
Definition flaky_world : World :=
  scripted_world (fun n => Ok (S n))
                 (fun n => match n with 0 => Some "broken pipe" | _ => None end).

(** The client [NewHekaClient] builds for ["tcp://127.0.0.1:5565"]. *)
Definition fresh_client : HekaClient :=
  mkHekaClient 4242%Z "web1" "teststats" None (mkURL "tcp" "127.0.0.1:5565") ChanOpen.

Definition fresh_state : state := mkState fresh_client [].

Definition payload : bytes := [Byte.x1e; Byte.x1f].

(** A registry that holds one counter at first and two after the first
    encoding. *)
Definition growing_registry : RegistryRef :=
  fun tr =>
    if count is_encode tr =? 0
    then [("requests", Counter 42%Z)]
    else [("requests", Counter 43%Z); ("errors", Counter 1%Z)].

Definition static_registry : RegistryRef :=
  fun _ => [("requests", Counter 42%Z)].

(** ** Vocabulary of the further properties *)

Definition is_close (e : event) : bool :=
  match e with EvClose _ => true | _ => false end.

(** A dial that gave a connection. *)
Definition is_dial_ok (e : event) : bool :=
  match e with EvDial _ _ (Ok _) => true | _ => false end.

(** The number of connections a client holds: one or none. *)
Definition held (h : HekaClient) : nat :=
  match sender h with Some _ => 1 | None => 0 end.

(** A field with exactly one value, in the entry its type names. *)
Definition well_typed (f : Field) : Prop :=
  match ValueType f with
  | Field_INTEGER => List.length (ValueInteger f) = 1 /\ ValueDouble f = []
  | Field_DOUBLE => ValueInteger f = [] /\ List.length (ValueDouble f) = 1
  | _ => False
  end.

Definition is_other (i : metric) : bool :=
  match i with OtherMetric => true | _ => false end.

(** A histogram or timer whose snapshot answers the five canonical
    percentiles with at least five values. *)
Definition answers_enough (i : metric) : Prop :=
  match i with
  | Histogram h => 5 <= List.length (h_Percentiles h canonical_percentiles)
  | Timer t => 5 <= List.length (t_Percentiles t canonical_percentiles)
  | _ => True
  end.

(** An event that, if it is a dial, dials the scheme and host of [u]. *)
Definition dials_to (u : URL) (e : event) : Prop :=
  match e with
  | EvDial s h _ => s = Scheme u /\ h = Host u
  | _ => True
  end.

(** An event that, if it is an encoding, encodes a message carrying the
    envelope [LogHeka] sets for a client with these labels. *)
Definition stamped (type_label : string) (p : int32) (host : string) (e : event)
    : Prop :=
  match e with
  | EvEncode m _ =>
      Logger m = Some "go-metrics" /\ Type_ m = Some type_label
      /\ Pid m = Some p /\ Severity m = Some 100%Z
      /\ Hostname m = Some host /\ Payload m = Some ""
      /\ Timestamp m <> None /\ Uuid m <> None
  | _ => True
  end.

(** A network on which every dial gives a connection in [good] and every
    transmission over a connection in [good] works. *)
Definition healthy (w : World) (good : conn -> Prop) : Prop :=
  (forall tr s h, exists c, NewNetworkSender w tr s h = Ok c /\ good c)
  /\ (forall tr c b, good c -> SendMessage w tr c b = None).

(** Every dial gives a fresh connection (numbered from 1); transmissions
    fail on connection 0 only. *)
Definition stale_world : World :=
  mkWorld split_scheme 4242%Z (Ok "web1")
          (fun tr _ _ => Ok (S (count is_dial tr)))
          (fun _ c _ => match c with 0 => Some "broken pipe" | _ => None end)
          small_encoder
          (fun tr => (1400000000000000000 + Z.of_nat (List.length tr))%Z)
          (fun tr => [Byte.x2a]).

(** A client holding connection 0. *)
Definition stale_state : state :=
  mkState (with_sender (Some 0) fresh_client) [].

(** A world like [good_world] on a machine whose hostname cannot be read
    and whose process id does not fit 32 bits. *)
Definition nameless_world : World :=
  mkWorld split_scheme 4294967301%Z (Err "hostname: not available")
          (fun tr _ _ => Ok (S (count is_dial tr)))
          (fun _ _ _ => None)
          small_encoder
          (fun tr => (1400000000000000000 + Z.of_nat (List.length tr))%Z)
          (fun tr => [Byte.x2a]).

(** A histogram snapshot that answers with four values only. *)
Definition short_histogram : HistogramSnapshot :=
  mkHistogram (fun _ => [1; 2; 3; 4]%float) 50%float 20%float 10%Z 1%Z 100%Z.

(** * Properties *)

(** ** Strings and lists *)

Lemma append_assoc (a b c : string) : ((a ++ b) ++ c = a ++ (b ++ c))%string.
Proof.
  induction a as [|x a IH]; simpl; [reflexivity | now rewrite IH].
Qed.

Lemma prefix_append (a b : string) : String.prefix a (a ++ b) = true.
Proof.
  induction a as [|c a IH]; simpl.
  - now destruct b.
  - destruct (ascii_dec c c) as [_|Hne]; [exact IH | now elim Hne].
Qed.

Lemma append_nil_r (a : string) : (a ++ "")%string = a.
Proof. induction a as [|x a IH]; simpl; [reflexivity | now rewrite IH]. Qed.

(** Two ways of cutting one string: one of the heads extends the other. *)
Lemma append_split (a b s t : string) :
  (a ++ s = b ++ t)%string ->
  exists x, (a = b ++ x /\ t = x ++ s)%string \/ (b = a ++ x /\ s = x ++ t)%string.
Proof.
  revert b. induction a as [|c a IH]; intros b H.
  - exists b. right. simpl in *. auto.
  - destruct b as [|c' b].
    + exists (String c a). left. simpl in *. auto.
    + simpl in H. injection H as -> H. destruct (IH b H) as (x & [[-> ->]|[-> ->]]);
        exists x; [left | right]; auto.
Qed.

Lemma append_inj_r (a s t : string) : (a ++ s = a ++ t)%string -> s = t.
Proof.
  induction a as [|x a IH]; simpl; intros H; [exact H|].
  injection H as H. now apply IH.
Qed.

Lemma skipn_nth_cons {A : Type} (d : A) (l : list A) (i : nat) :
  i < List.length l -> skipn i l = nth i l d :: skipn (S i) l.
Proof.
  revert i; induction l as [|a l IH]; intros [|i] H; simpl in *; try lia.
  - reflexivity.
  - apply IH. lia.
Qed.

Lemma In_firstn {A : Type} (x : A) (k : nat) (l : list A) :
  In x (firstn k l) -> In x l.
Proof.
  revert l; induction k as [|k IH]; intros [|a l]; simpl; try tauto.
  intros [H|H]; [now left | right; now apply IH].
Qed.

Lemma NoDup_firstn {A : Type} (k : nat) (l : list A) :
  NoDup l -> NoDup (firstn k l).
Proof.
  revert l; induction k as [|k IH]; intros [|a l] H; simpl; try constructor.
  - inversion H; subst. intros Hin. apply In_firstn in Hin. contradiction.
  - inversion H; subst. now apply IH.
Qed.

Lemma map_fst_combine {A B : Type} (l : list A) (l' : list B) :
  map fst (combine l l') = firstn (List.length l') l.
Proof.
  revert l'; induction l as [|a l IH]; intros [|b l']; simpl; try reflexivity.
  now rewrite IH.
Qed.

(** ** The encoder only ever appends *)

Lemma enc_extend_nil (st : enc) : enc_extend [] [] st = st.
Proof.
  destruct st as [[] l]; unfold enc_extend, with_Fields; simpl.
  now rewrite !app_nil_r.
Qed.

Lemma enc_extend_extend (fs1 fs2 : list Field) (ls1 ls2 : list log_call) (st : enc) :
  enc_extend fs2 ls2 (enc_extend fs1 ls1 st) = enc_extend (fs1 ++ fs2) (ls1 ++ ls2) st.
Proof.
  unfold enc_extend, with_Fields; simpl. now rewrite !app_assoc.
Qed.

Lemma enc_add_extend (f : Field) (st : enc) : enc_add f st = enc_extend [f] [] st.
Proof.
  unfold enc_add, enc_extend, AddField; simpl. now rewrite app_nil_r.
Qed.

Lemma enc_int64_extend (name : string) (v : int64) (repr : string) (st : enc) :
  enc_int64 name v repr st = enc_extend [int_field name v repr] [] st.
Proof.
  unfold enc_int64, enc_extend, NewInt64Field, AddField, int_field; simpl.
  now rewrite app_nil_r.
Qed.

Lemma enc_log_extend (l : log_call) (st : enc) : enc_log l st = enc_extend [] [l] st.
Proof.
  destruct st as [[] ls]; unfold enc_log, enc_extend, with_Fields; simpl.
  now rewrite app_nil_r.
Qed.

Lemma Fields_enc_extend (fs : list Field) (ls : list log_call) (st : enc) :
  Fields (fst (enc_extend fs ls st)) = Fields (fst st) ++ fs.
Proof. reflexivity. Qed.

Lemma add_float_mapping_from_extend (pref : string) (vals : list float64) :
  forall (names : list string) (i : nat) (st : enc),
    add_float_mapping_from i pref names vals st =
    enc_extend
      (map (fun nv => float_field pref (fst nv) (snd nv)) (combine names (skipn i vals)))
      (map (skip_line pref) (skipn (List.length vals - i) names)) st.
Proof.
  induction names as [|n rest IH]; intros i st.
  - simpl. rewrite skipn_nil. simpl. now rewrite enc_extend_nil.
  - cbn [add_float_mapping_from].
    destruct (Nat.ltb_spec (List.length vals) (i + 1)) as [Hlt|Hge].
    + rewrite IH, enc_log_extend, enc_extend_extend.
      rewrite (skipn_all2 vals) by lia. rewrite (skipn_all2 vals) by lia.
      replace (List.length vals - i) with 0 by lia.
      replace (List.length vals - S i) with 0 by lia.
      rewrite combine_nil. reflexivity.
    + cbn [NewField].
      rewrite IH, enc_add_extend, enc_extend_extend.
      rewrite (@skipn_nth_cons float64 0%float vals i) by lia.
      replace (List.length vals - i) with (S (List.length vals - S i)) by lia.
      reflexivity.
Qed.

Lemma add_float_mapping_extend (pref : string) (names : list string)
    (vals : list float64) (st : enc) :
  add_float_mapping pref names vals st =
  enc_extend (map (fun nv => float_field pref (fst nv) (snd nv)) (combine names vals))
             (map (skip_line pref) (skipn (List.length vals) names)) st.
Proof.
  unfold add_float_mapping. rewrite add_float_mapping_from_extend.
  now rewrite Nat.sub_0_r.
Qed.

Lemma add_int_fields_extend (pref : string) (c mn mx : int64)
    (repr : string -> string) (st : enc) :
  add_int_fields_from 0 pref int_names [c; mn; mx] repr st =
  enc_extend (int_fields pref c mn mx repr) [] st.
Proof.
  unfold int_names, int_fields. cbn [add_int_fields_from nth].
  now rewrite !enc_int64_extend, !enc_extend_extend.
Qed.

(** Every registry entry appends a block that does not depend on what is
    already in the message. *)
Lemma each_extend (name : string) (i : metric) :
  exists (fs : list Field) (ls : list log_call),
    forall st, each name i st = enc_extend fs ls st.
Proof.
  destruct i as [c|v|v|h|m|t|]; cbn [each NewField].
  - eexists _, _. intros st. apply enc_int64_extend.
  - eexists _, _. intros st. apply enc_int64_extend.
  - eexists _, _. intros st. apply enc_add_extend.
  - eexists _, _. intros st.
    rewrite add_int_fields_extend, add_float_mapping_extend, enc_extend_extend.
    reflexivity.
  - eexists _, _. intros st.
    rewrite add_float_mapping_extend, enc_int64_extend, enc_extend_extend.
    reflexivity.
  - eexists _, _. intros st.
    rewrite add_int_fields_extend, add_float_mapping_extend, enc_extend_extend.
    reflexivity.
  - exists [], []. intros st. now rewrite enc_extend_nil.
Qed.

Lemma Fields_each (name : string) (i : metric) (st : enc) :
  Fields (fst (each name i st)) = Fields (fst st) ++ metric_fields name i.
Proof.
  destruct (each_extend name i) as (fs & ls & H).
  unfold metric_fields. now rewrite !H.
Qed.

Lemma Fields_Each (r : Registry) :
  forall st, Fields (fst (Each r st)) = Fields (fst st) ++ registry_fields r.
Proof.
  induction r as [|[name i] r IH]; intros st; simpl.
  - now rewrite app_nil_r.
  - rewrite IH, Fields_each. unfold registry_fields. simpl.
    now rewrite app_assoc.
Qed.

Lemma Fields_make_message (r : Registry) :
  Fields (make_message r) = registry_fields r.
Proof. unfold make_message, make_message_log. now rewrite Fields_Each. Qed.

Lemma registry_fields_app (r1 r2 : Registry) :
  registry_fields (r1 ++ r2) = registry_fields r1 ++ registry_fields r2.
Proof. unfold registry_fields. apply flat_map_app. Qed.

(** ** What each kind of metric contributes *)

Lemma metric_fields_Histogram (name : string) (h : HistogramSnapshot) :
  metric_fields name (Histogram h) =
  map (fun nv => float_field (name ++ ".histogram") (fst nv) (snd nv))
      (combine histogram_names
               (h_Percentiles h canonical_percentiles ++ [h_Mean h; h_StdDev h]))
  ++ int_fields (name ++ ".histogram") (h_Count h) (h_Min h) (h_Max h) (fun n => n).
Proof.
  unfold metric_fields. cbn [each].
  now rewrite add_int_fields_extend, add_float_mapping_extend, !Fields_enc_extend.
Qed.

Lemma metric_fields_Timer (name : string) (t : TimerSnapshot) :
  metric_fields name (Timer t) =
  map (fun nv => float_field (name ++ ".timer") (fst nv) (snd nv))
      (combine timer_names
               (t_Percentiles t canonical_percentiles ++
                [t_Mean t; t_StdDev t; t_Rate1 t; t_Rate5 t; t_Rate15 t; t_RateMean t]))
  ++ int_fields (name ++ ".timer") (t_Count t) (t_Min t) (t_Max t) (fun _ => "").
Proof.
  unfold metric_fields. cbn [each].
  now rewrite add_int_fields_extend, add_float_mapping_extend, !Fields_enc_extend.
Qed.

Lemma metric_fields_Meter (name : string) (m : MeterSnapshot) :
  metric_fields name (Meter m) =
  int_field (name ++ ".count") (m_Count m) "" ::
  map (fun nv => float_field name (fst nv) (snd nv))
      (combine meter_names [m_Rate1 m; m_Rate5 m; m_Rate15 m; m_RateMean m]).
Proof.
  unfold metric_fields. cbn [each].
  now rewrite add_float_mapping_extend, enc_int64_extend, !Fields_enc_extend.
Qed.

Lemma five_values {A : Type} (d : A) (l : list A) :
  List.length l = 5 -> l = [nth 0 l d; nth 1 l d; nth 2 l d; nth 3 l d; nth 4 l d].
Proof.
  destruct l as [|a [|b [|c [|e [|f [|g l]]]]]]; simpl; intros H;
    try discriminate H; reflexivity.
Qed.

Lemma Fields_make_message_at (r1 r2 : Registry) (name : string) (i : metric) :
  Fields (make_message (r1 ++ (name, i) :: r2)) =
  Fields (make_message r1) ++ metric_fields name i ++ Fields (make_message r2).
Proof.
  rewrite !Fields_make_message, registry_fields_app.
  unfold registry_fields at 2. simpl. reflexivity.
Qed.

Lemma dotted_assoc (name kind n : string) :
  dotted (name ++ kind) n = (name ++ (kind ++ "." ++ n))%string.
Proof. unfold dotted. now rewrite append_assoc. Qed.

(** ** The claims about the encoder *)

(** C8: when [add_float_mapping] gets fewer values than names, the names
    that have a value at their index are encoded, in order, each with that
    value; every later name gets no field, only a logged line; and the
    entries of the registry walked afterwards are encoded as they always
    are. *)
Theorem add_float_mapping_short_values
    (pref : string) (names : list string) (vals : list float64) (st : enc)
    (r : Registry) :
  List.length vals < List.length names ->
  let st' := add_float_mapping pref names vals st in
  Fields (fst st') =
    Fields (fst st) ++
    map (fun nv => float_field pref (fst nv) (snd nv))
        (combine (firstn (List.length vals) names) vals)
  /\ List.length (Fields (fst st')) = List.length (Fields (fst st)) + List.length vals
  /\ snd st' = snd st ++ map (skip_line pref) (skipn (List.length vals) names)
  /\ Fields (fst (Each r st')) = Fields (fst st') ++ registry_fields r.
Proof.
  intros Hlen st'. subst st'. rewrite add_float_mapping_extend.
  rewrite Fields_enc_extend, <- combine_firstn_r.
  repeat split.
  - rewrite length_app, length_map, length_combine. lia.
  - apply Fields_Each.
Qed.

Lemma add_float_mapping_short_values_witness :
  List.length [1.5; 2.5]%float < List.length histogram_names
  /\ let st' := add_float_mapping "x.histogram" histogram_names [1.5; 2.5]%float
                  (empty_Message, []) in
     Fields (fst st') =
       [] ++
       map (fun nv => float_field "x.histogram" (fst nv) (snd nv))
           (combine (firstn 2 histogram_names) [1.5; 2.5]%float)
     /\ List.length (Fields (fst st')) = 0 + 2
     /\ snd st' = [] ++ map (skip_line "x.histogram") (skipn 2 histogram_names)
     /\ Fields (fst (Each [("n", Counter 1%Z)] st')) =
        Fields (fst st') ++ registry_fields [("n", Counter 1%Z)].
Proof.
  split.
  - simpl. lia.
  - apply (add_float_mapping_short_values "x.histogram" histogram_names
             [1.5; 2.5]%float (empty_Message, []) [("n", Counter 1%Z)]).
    simpl. lia.
Defined.

(** C5: a Counter and a Gauge each add exactly one INTEGER field, a
    GaugeFloat64 exactly one DOUBLE field, named as the metric and holding
    its value in the entry of its own type only; inside any registry that
    field sits at the entry's place; and the registry of the example gives
    the two fields of the example. *)
Theorem scalar_metrics_one_field :
  (forall name c, metric_fields name (Counter c) =
                  [mkField name Field_INTEGER "" [c] []])
  /\ (forall name v, metric_fields name (Gauge v) =
                     [mkField name Field_INTEGER "" [v] []])
  /\ (forall name v, metric_fields name (GaugeFloat64 v) =
                     [mkField name Field_DOUBLE "" [] [v]])
  /\ (forall r1 r2 name i,
        Fields (make_message (r1 ++ (name, i) :: r2)) =
        Fields (make_message r1) ++ metric_fields name i ++ Fields (make_message r2))
  /\ Fields (make_message [("requests", Counter 42%Z);
                           ("cpu.load", GaugeFloat64 0.73%float)]) =
     [mkField "requests" Field_INTEGER "" [42%Z] [];
      mkField "cpu.load" Field_DOUBLE "" [] [0.73%float]].
Proof.
  repeat split; try reflexivity.
  intros r1 r2 name i. apply Fields_make_message_at.
Qed.

(** C4: the five percentiles are asked for in ascending order; a Histogram
    [name] whose snapshot answers with five values adds, in this order, the
    DOUBLE fields [name.histogram.50-percentile] ... [name.histogram.std-dev]
    holding the five percentiles, the mean and the standard deviation, then
    the INTEGER fields [name.histogram.count], [.min], [.max]; a Timer does
    the same under [name.timer.], with the four rates after the standard
    deviation; inside any registry these blocks sit at the entry's place. *)
Theorem histogram_timer_fields
    (name : string) (h : HistogramSnapshot) (t : TimerSnapshot) (r1 r2 : Registry) :
  List.length (h_Percentiles h canonical_percentiles) = List.length canonical_percentiles ->
  List.length (t_Percentiles t canonical_percentiles) = List.length canonical_percentiles ->
  let p i := nth i (h_Percentiles h canonical_percentiles) 0%float in
  let q i := nth i (t_Percentiles t canonical_percentiles) 0%float in
  ascending canonical_percentiles = true
  /\ metric_fields name (Histogram h) =
     [mkField (name ++ ".histogram.50-percentile") Field_DOUBLE "" [] [p 0];
      mkField (name ++ ".histogram.75-percentile") Field_DOUBLE "" [] [p 1];
      mkField (name ++ ".histogram.95-percentile") Field_DOUBLE "" [] [p 2];
      mkField (name ++ ".histogram.99-percentile") Field_DOUBLE "" [] [p 3];
      mkField (name ++ ".histogram.999-percentile") Field_DOUBLE "" [] [p 4];
      mkField (name ++ ".histogram.mean") Field_DOUBLE "" [] [h_Mean h];
      mkField (name ++ ".histogram.std-dev") Field_DOUBLE "" [] [h_StdDev h];
      mkField (name ++ ".histogram.count") Field_INTEGER
              (name ++ ".histogram.count") [h_Count h] [];
      mkField (name ++ ".histogram.min") Field_INTEGER
              (name ++ ".histogram.min") [h_Min h] [];
      mkField (name ++ ".histogram.max") Field_INTEGER
              (name ++ ".histogram.max") [h_Max h] []]
  /\ metric_fields name (Timer t) =
     [mkField (name ++ ".timer.50-percentile") Field_DOUBLE "" [] [q 0];
      mkField (name ++ ".timer.75-percentile") Field_DOUBLE "" [] [q 1];
      mkField (name ++ ".timer.95-percentile") Field_DOUBLE "" [] [q 2];
      mkField (name ++ ".timer.99-percentile") Field_DOUBLE "" [] [q 3];
      mkField (name ++ ".timer.999-percentile") Field_DOUBLE "" [] [q 4];
      mkField (name ++ ".timer.mean") Field_DOUBLE "" [] [t_Mean t];
      mkField (name ++ ".timer.std-dev") Field_DOUBLE "" [] [t_StdDev t];
      mkField (name ++ ".timer.one-minute") Field_DOUBLE "" [] [t_Rate1 t];
      mkField (name ++ ".timer.five-minute") Field_DOUBLE "" [] [t_Rate5 t];
      mkField (name ++ ".timer.fifteen-minute") Field_DOUBLE "" [] [t_Rate15 t];
      mkField (name ++ ".timer.mean-rate") Field_DOUBLE "" [] [t_RateMean t];
      mkField (name ++ ".timer.count") Field_INTEGER "" [t_Count t] [];
      mkField (name ++ ".timer.min") Field_INTEGER "" [t_Min t] [];
      mkField (name ++ ".timer.max") Field_INTEGER "" [t_Max t] []]
  /\ Fields (make_message (r1 ++ (name, Histogram h) :: r2)) =
     Fields (make_message r1) ++ metric_fields name (Histogram h)
     ++ Fields (make_message r2)
  /\ Fields (make_message (r1 ++ (name, Timer t) :: r2)) =
     Fields (make_message r1) ++ metric_fields name (Timer t)
     ++ Fields (make_message r2).
Proof.
  intros Hh Ht p q. subst p q.
  split; [reflexivity|].
  split; [|split; [|split; apply Fields_make_message_at]].
  - rewrite metric_fields_Histogram.
    rewrite (five_values 0%float _ Hh) at 1.
    unfold histogram_names, int_fields, float_field, int_field.
    cbn [app combine map fst snd]. rewrite !dotted_assoc. reflexivity.
  - rewrite metric_fields_Timer.
    rewrite (five_values 0%float _ Ht) at 1.
    unfold timer_names, int_fields, float_field, int_field.
    cbn [app combine map fst snd]. rewrite !dotted_assoc. reflexivity.
Qed.

(** ** Field names across a registry *)

Lemma In_app_firstn {A : Type} (x : A) (l1 l l2 : list A) (k : nat) :
  In x (l1 ++ firstn k l ++ l2) -> In x (l1 ++ l ++ l2).
Proof.
  rewrite !in_app_iff. intros [H|[H|H]]; auto.
  right; left. now apply In_firstn in H.
Qed.

Lemma NoDup_app_firstn {A : Type} (l1 l l2 : list A) (k : nat) :
  NoDup (l1 ++ l ++ l2) -> NoDup (l1 ++ firstn k l ++ l2).
Proof.
  induction l1 as [|a l1 IH]; simpl.
  - revert k. induction l as [|a l IHl]; intros [|k] H; simpl in *; auto.
    + apply (IHl 0). now inversion H.
    + inversion H as [|? ? Hn Hd]; subst. constructor.
      * intros Hin. apply Hn. now apply (In_app_firstn a [] l l2 k).
      * now apply IHl.
  - intros H. inversion H as [|? ? Hn Hd]; subst. constructor.
    + intros Hin. apply Hn. now apply In_app_firstn in Hin.
    + now apply IH.
Qed.

Lemma NoDup_map_append (a : string) (l : list string) :
  NoDup l -> NoDup (map (String.append a) l).
Proof.
  intros H. apply NoDup_map_NoDup_ForallPairs; [|exact H].
  intros x y _ _ Heq. now apply append_inj_r in Heq.
Qed.

Lemma names_float_fields (pref : string) (names : list string) (vals : list float64) :
  map Name (map (fun nv => float_field pref (fst nv) (snd nv)) (combine names vals)) =
  map (dotted pref) (firstn (List.length vals) names).
Proof.
  rewrite <- map_fst_combine, !map_map. reflexivity.
Qed.

Ltac nodup_strings :=
  repeat (constructor; [simpl; intuition discriminate|]); constructor.

Lemma NoDup_histogram_names : NoDup ([] ++ histogram_names ++ int_names).
Proof. nodup_strings. Qed.

Lemma NoDup_timer_names : NoDup ([] ++ timer_names ++ int_names).
Proof. nodup_strings. Qed.

Lemma NoDup_meter_names : NoDup (["count"] ++ meter_names ++ []).
Proof. nodup_strings. Qed.

Lemma tails_block (kind : string) (l1 l l2 : list string) (k : nat) :
  NoDup (l1 ++ l ++ l2) ->
  let tails := map (String.append (String "." kind)) (l1 ++ firstn k l ++ l2) in
  NoDup tails /\ Forall tail_ok tails.
Proof.
  intros H tails. subst tails. split.
  - apply NoDup_map_append. now apply NoDup_app_firstn.
  - apply Forall_forall. intros s Hs. apply in_map_iff in Hs as (s0 & <- & _).
    right. simpl. eauto.
Qed.

(** The field names of one entry are its name followed by distinct tails. *)
Lemma metric_names_shape (name : string) (i : metric) :
  exists tails,
    map Name (metric_fields name i) = map (String.append name) tails
    /\ NoDup tails /\ Forall tail_ok tails.
Proof.
  destruct i as [c|v|v|h|m|t|].
  1-3: exists [EmptyString]; simpl; rewrite append_nil_r;
       (split; [reflexivity | split; [nodup_strings | repeat constructor]]).
  - rewrite metric_fields_Histogram.
    match goal with |- context [combine _ ?vals] =>
      exists (map (String.append ".histogram.")
                  ([] ++ firstn (List.length vals) histogram_names ++ int_names))
    end.
    split; [|apply (tails_block "histogram." [] histogram_names int_names);
             exact NoDup_histogram_names].
    rewrite (app_nil_l (firstn _ _ ++ _)).
    rewrite map_app, names_float_fields, !map_app, !map_map. f_equal.
    + apply map_ext. intros s. apply dotted_assoc.
    + unfold int_fields, int_names. simpl. now rewrite !dotted_assoc.
  - rewrite metric_fields_Meter.
    match goal with |- context [combine _ ?vals] =>
      exists (map (String.append ".")
                  (["count"] ++ firstn (List.length vals) meter_names ++ []))
    end.
    split; [|apply (tails_block "" ["count"] meter_names []);
             exact NoDup_meter_names].
    rewrite app_nil_r. cbn [map Name int_field app].
    rewrite names_float_fields, !map_map. reflexivity.
  - rewrite metric_fields_Timer.
    match goal with |- context [combine _ ?vals] =>
      exists (map (String.append ".timer.")
                  ([] ++ firstn (List.length vals) timer_names ++ int_names))
    end.
    split; [|apply (tails_block "timer." [] timer_names int_names);
             exact NoDup_timer_names].
    rewrite (app_nil_l (firstn _ _ ++ _)).
    rewrite map_app, names_float_fields, !map_app, !map_map. f_equal.
    + apply map_ext. intros s. apply dotted_assoc.
    + unfold int_fields, int_names. simpl. now rewrite !dotted_assoc.
  - exists []. repeat split; constructor.
Qed.

Lemma NoDup_metric_names (name : string) (i : metric) :
  NoDup (map Name (metric_fields name i)).
Proof.
  destruct (metric_names_shape name i) as (tails & -> & Hnd & _).
  now apply NoDup_map_append.
Qed.

Lemma dotted_extension_append (n s : string) :
  dotted_extension n (n ++ String "." s) = true.
Proof.
  unfold dotted_extension.
  change (String "." s) with ("." ++ s)%string.
  rewrite <- append_assoc. apply prefix_append.
Qed.

(** When two field names built from names [n1] and [n2] and their tails
    coincide, the names are equal or one is the other followed by a dot and
    a suffix. *)
Lemma field_name_clash (n1 n2 t1 t2 : string) :
  tail_ok t1 -> tail_ok t2 -> (n1 ++ t1 = n2 ++ t2)%string ->
  n1 = n2 \/ dotted_extension n2 n1 = true \/ dotted_extension n1 n2 = true.
Proof.
  intros H1 H2 Heq.
  destruct (append_split n1 n2 t1 t2 Heq) as (x & [[-> Ht]|[-> Ht]]).
  - destruct x as [|c x]; [left; apply append_nil_r|].
    right; left.
    destruct H2 as [->|(s' & ->)]; [discriminate Ht|].
    simpl in Ht. injection Ht as <- _. apply dotted_extension_append.
  - destruct x as [|c x]; [left; symmetry; apply append_nil_r|].
    right; right.
    destruct H1 as [->|(s' & ->)]; [discriminate Ht|].
    simpl in Ht. injection Ht as <- _. apply dotted_extension_append.
Qed.

Lemma registry_field_name_shape (r : Registry) (f : string) :
  In f (map Name (registry_fields r)) ->
  exists name tail, In name (map fst r) /\ f = (name ++ tail)%string /\ tail_ok tail.
Proof.
  induction r as [|[name i] r IH]; simpl; [tauto|].
  unfold registry_fields in *. simpl. rewrite map_app, in_app_iff.
  intros [Hin|Hin].
  - destruct (metric_names_shape name i) as (tails & Heq & _ & Hok).
    rewrite Heq in Hin. apply in_map_iff in Hin as (tail & <- & Ht).
    rewrite Forall_forall in Hok. exists name, tail. auto.
  - destruct (IH Hin) as (n & tail & Hn & Hf & Hok). exists n, tail. auto.
Qed.

Lemma no_dotted_extensions_spec (names : list string) (n m : string) :
  no_dotted_extensions names = true -> In n names -> In m names ->
  dotted_extension n m = false.
Proof.
  unfold no_dotted_extensions. intros H Hn Hm.
  rewrite forallb_forall in H. specialize (H n Hn).
  rewrite forallb_forall in H. specialize (H m Hm).
  now apply negb_true_iff in H.
Qed.

Lemma no_dotted_extensions_tail (n : string) (names : list string) :
  no_dotted_extensions (n :: names) = true -> no_dotted_extensions names = true.
Proof.
  intros H. unfold no_dotted_extensions.
  apply forallb_forall. intros a Ha. apply forallb_forall. intros b Hb.
  apply negb_true_iff.
  apply (no_dotted_extensions_spec (n :: names)); auto using in_cons.
Qed.

(** C9, the claim as stated, refuted: the names ["a"] and ["a.count"] are
    distinct, yet the meter ["a"] and the counter ["a.count"] both add a
    field named ["a.count"]. *)
Lemma distinct_names_not_enough :
  NoDup (map fst clash_registry)
  /\ field_names (make_message clash_registry) =
     ["a.count"; "a.one-minute"; "a.five-minute"; "a.fifteen-minute"; "a.mean";
      "a.count"]
  /\ ~ NoDup (field_names (make_message clash_registry)).
Proof.
  split; [nodup_strings|]. split; [reflexivity|].
  intros H. inversion H as [|? ? Hn _]; subst.
  apply Hn. simpl. tauto.
Qed.

(** The registry of the refutation is excluded by the amended condition:
    ["a.count"] is ["a"] followed by a dot and a suffix. *)
Lemma clash_registry_has_extension :
  no_dotted_extensions (map fst clash_registry) = false.
Proof. reflexivity. Qed.

(** C9, amended: in a registry whose metric names are distinct and in
    which no metric name is another metric name followed by a dot and a
    suffix, no two fields of the encoded message share a name. *)
Theorem field_names_unique (r : Registry) :
  NoDup (map fst r) ->
  no_dotted_extensions (map fst r) = true ->
  NoDup (field_names (make_message r)).
Proof.
  unfold field_names. rewrite Fields_make_message.
  induction r as [|[name i] r IH]; intros Hnd Hext.
  - constructor.
  - inversion Hnd as [|? ? Hnotin Hnd']; subst.
    unfold registry_fields. simpl. rewrite map_app.
    apply NoDup_app.
    + apply NoDup_metric_names.
    + apply IH; [exact Hnd' | exact (no_dotted_extensions_tail _ _ Hext)].
    + intros f Hin1 Hin2.
      destruct (metric_names_shape name i) as (tails & Heq & _ & Hok).
      rewrite Heq in Hin1. apply in_map_iff in Hin1 as (t1 & <- & Ht1).
      rewrite Forall_forall in Hok.
      destruct (registry_field_name_shape r _ Hin2) as (n2 & t2 & Hn2 & Hf & Hok2).
      destruct (field_name_clash name n2 t1 t2 (Hok t1 Ht1) Hok2 Hf)
        as [->|[Hx|Hx]].
      * contradiction.
      * rewrite (no_dotted_extensions_spec _ n2 name Hext) in Hx;
          [discriminate Hx | now right | now left].
      * rewrite (no_dotted_extensions_spec _ name n2 Hext) in Hx;
          [discriminate Hx | now left | now right].
Qed.

Lemma field_names_unique_witness :
  NoDup (map fst dotted_registry)
  /\ no_dotted_extensions (map fst dotted_registry) = true
  /\ NoDup (field_names (make_message dotted_registry)).
Proof.
  assert (H1 : NoDup (map fst dotted_registry)) by nodup_strings.
  exact (conj H1 (conj eq_refl (field_names_unique dotted_registry H1 eq_refl))).
Defined.

Lemma histogram_timer_fields_witness :
  metric_fields "x" (Timer example_timer) =
  [mkField "x.timer.50-percentile" Field_DOUBLE "" [] [50%float];
   mkField "x.timer.75-percentile" Field_DOUBLE "" [] [75%float];
   mkField "x.timer.95-percentile" Field_DOUBLE "" [] [95%float];
   mkField "x.timer.99-percentile" Field_DOUBLE "" [] [99%float];
   mkField "x.timer.999-percentile" Field_DOUBLE "" [] [99.9%float];
   mkField "x.timer.mean" Field_DOUBLE "" [] [50%float];
   mkField "x.timer.std-dev" Field_DOUBLE "" [] [20%float];
   mkField "x.timer.one-minute" Field_DOUBLE "" [] [2%float];
   mkField "x.timer.five-minute" Field_DOUBLE "" [] [1.5%float];
   mkField "x.timer.fifteen-minute" Field_DOUBLE "" [] [1.25%float];
   mkField "x.timer.mean-rate" Field_DOUBLE "" [] [1.75%float];
   mkField "x.timer.count" Field_INTEGER "" [10%Z] [];
   mkField "x.timer.min" Field_INTEGER "" [1%Z] [];
   mkField "x.timer.max" Field_INTEGER "" [100%Z] []].
Proof.
  exact (proj1 (proj2 (proj2
    (histogram_timer_fields "x" example_histogram example_timer [] []
       eq_refl eq_refl)))).
Defined.

(** ** The sender *)

Lemma count_app (p : event -> bool) (a b : list event) :
  count p (a ++ b) = count p a + count p b.
Proof. unfold count. now rewrite filter_app, length_app. Qed.

(** Runs [write] along every answer the network can give. *)
Ltac run_network :=
  repeat (cbn;
    match goal with
    | |- context [match NewNetworkSender ?w ?t ?s ?h with _ => _ end] =>
        destruct (NewNetworkSender w t s h) eqn:?
    | |- context [match SendMessage ?w ?t ?c ?b with _ => _ end] =>
        destruct (SendMessage w t c b) eqn:?
    end).

(** What one call of [write] does to the trace and to the client. *)
Lemma write_trace (w : World) (b : bytes) (st : state) :
  exists (r : option error) (new : list event),
    fst (write w b st) = Return r
    /\ trace (snd (write w b st)) = trace st ++ new
    /\ count is_dial new <= 2
    /\ count is_send new <= 2
    /\ 1 <= count is_dial new + count is_send new
    /\ count is_encode new = 0
    /\ stop (hc (snd (write w b st))) = stop (hc st)
    /\ (r = None -> Connected (hc (snd (write w b st))))
    /\ Forall (sends_only b) new.
Proof.
  destruct st as [[p hn mt [c|] u ch] tr];
    unfold write, reconnect, sender_SendMessage, bind, get_hc, get_trace,
      set_sender, logger, emit, ret, panic, Connected;
    run_network; cbn;
    rewrite <- ?app_assoc; cbn [app];
    (eexists _, _; split; [reflexivity|]; split; [reflexivity|]);
    cbn; repeat split; try lia; try congruence;
    repeat constructor.
Qed.

(** C6: whatever the network answers, one call of [write] returns after at
    most two calls of [client.NewNetworkSender] and at most two calls of
    [SendMessage]. *)
Theorem write_attempt_bound (w : World) (b : bytes) (st : state) :
  exists (r : option error) (new : list event),
    write w b st = (Return r, snd (write w b st))
    /\ trace (snd (write w b st)) = trace st ++ new
    /\ count is_dial new <= 2
    /\ count is_send new <= 2.
Proof.
  destruct (write_trace w b st) as (r & new & Hr & Htr & Hd & Hs & _).
  exists r, new. repeat split; auto.
  destruct (write w b st) as [o st']. simpl in *. now subst.
Qed.

(** C1, the claim as stated, refuted: starting Disconnected, with both
    transmit attempts failing, [write] returns the failure but the client
    still holds the connection of the retry. *)
Lemma both_transmits_fail_still_connected :
  let res := write dead_peer_world payload fresh_state in
  Disconnected (hc fresh_state)
  /\ filter is_send (trace (snd res)) =
     [EvSend 1 payload (Some "broken pipe"); EvSend 2 payload (Some "broken pipe")]
  /\ fst res = Return (Some "broken pipe")
  /\ sender (hc (snd res)) = Some 2
  /\ ~ Disconnected (hc (snd res)).
Proof.
  cbv zeta. repeat split; try reflexivity.
  unfold Disconnected. cbn. discriminate.
Qed.

(** C1, amended: a [write] that starts Disconnected and makes two transmit
    attempts, the first of which fails, returns what the second attempt
    returned and ends Connected, holding the connection of the retry: on
    success, and equally when the retry fails, in which case the failed
    transmission is the last thing the call does (the connection is neither
    closed nor dropped). *)
Theorem write_retry_outcome (w : World) (b : bytes) (st : state)
    (new : list event) (c1 c2 : conn) (e1 : error) (r2 : option error) :
  Disconnected (hc st) ->
  trace (snd (write w b st)) = trace st ++ new ->
  filter is_send new = [EvSend c1 b (Some e1); EvSend c2 b r2] ->
  fst (write w b st) = Return r2
  /\ sender (hc (snd (write w b st))) = Some c2
  /\ Connected (hc (snd (write w b st)))
  /\ exists before, new = before ++ [EvSend c2 b r2].
Proof.
  destruct st as [[p hn mt s u ch] tr]. unfold Disconnected. cbn [hc sender].
  intros ->.
  unfold write, reconnect, sender_SendMessage, bind, get_hc, get_trace,
    set_sender, logger, emit, ret, panic, Connected.
  run_network; cbn; rewrite <- ?app_assoc; cbn [app];
    intros Htr Hf; apply app_inv_head in Htr; subst new;
    cbn in Hf; try discriminate Hf;
    injection Hf as -> -> -> ->.
  - repeat split; try discriminate.
    eexists [_; _; _; _; _; _; _]. reflexivity.
  - repeat split; try discriminate.
    eexists [_; _; _; _; _; _; _]. reflexivity.
Qed.

Lemma write_retry_outcome_witness :
  (fst (write flaky_world payload fresh_state) = Return None
   /\ sender (hc (snd (write flaky_world payload fresh_state))) = Some 2)
  /\ (fst (write dead_peer_world payload fresh_state) = Return (Some "broken pipe")
      /\ sender (hc (snd (write dead_peer_world payload fresh_state))) = Some 2).
Proof.
  split.
  - pose proof (write_retry_outcome flaky_world payload fresh_state
                  (trace (snd (write flaky_world payload fresh_state)))
                  1 2 "broken pipe" None eq_refl eq_refl eq_refl) as H.
    exact (conj (proj1 H) (proj1 (proj2 H))).
  - pose proof (write_retry_outcome dead_peer_world payload fresh_state
                  (trace (snd (write dead_peer_world payload fresh_state)))
                  1 2 "broken pipe" (Some "broken pipe") eq_refl eq_refl eq_refl) as H.
    exact (conj (proj1 H) (proj1 (proj2 H))).
Defined.

(** ** Construction *)

(** C7: a connection string that does not parse, or whose scheme is
    neither [tcp] nor [udp], makes [NewHekaClient] return no client and an
    error (for a wrong scheme, the one that names it), without touching the
    network: the trace is left as it was.  With scheme [tcp] or [udp] a
    client is returned, Disconnected and with its stop channel open; the
    error returned beside it, if any, is the one of [os.Hostname()]. *)
Theorem NewHekaClient_scheme (w : World) (connect type_label : string)
    (tr : list event) :
  (forall e, ParseRequestURI w connect = Err e ->
     NewHekaClient w connect type_label tr = (Return (None, Some e), tr))
  /\ (forall u, ParseRequestURI w connect = Ok u ->
        Scheme u <> "tcp" -> Scheme u <> "udp" ->
        NewHekaClient w connect type_label tr =
          (Return (None, Some (scheme_error (Scheme u))), tr))
  /\ (forall u, ParseRequestURI w connect = Ok u ->
        Scheme u = "tcp" \/ Scheme u = "udp" ->
        exists h err,
          NewHekaClient w connect type_label tr = (Return (Some h, err), tr)
          /\ connect_s h = u /\ msgtype h = type_label
          /\ sender h = None /\ stop h = ChanOpen
          /\ (forall e, err = Some e -> os_Hostname w = Err e)).
Proof.
  unfold NewHekaClient. repeat split.
  - intros e ->. reflexivity.
  - intros u -> Htcp Hudp.
    apply String.eqb_neq in Htcp, Hudp. now rewrite Htcp, Hudp.
  - intros u -> Hs.
    assert (Hb : ((Scheme u =? "tcp") || (Scheme u =? "udp"))%string = true).
    { apply orb_true_iff. destruct Hs as [Hs|Hs]; [left|right];
        now apply String.eqb_eq. }
    rewrite Hb. destruct (os_Hostname w) as [name|e0].
    + eexists _, _. repeat split. discriminate.
    + eexists _, _. repeat split. now intros e [= ->].
Qed.

Lemma NewHekaClient_scheme_witness :
  NewHekaClient good_world "http://host:1" "teststats" [] =
    (Return (None, Some "scheme: 'http' not supported, try 'tcp://<host>:<port>' or 'udp://<host>:<port>'"),
     [])
  /\ NewHekaClient good_world "tcp://127.0.0.1:5565" "teststats" [] =
       (Return (Some fresh_client, None), []).
Proof.
  split.
  - apply (proj1 (proj2 (NewHekaClient_scheme good_world "http://host:1"
                           "teststats" [])) (mkURL "http" "host:1") eq_refl);
      discriminate.
  - destruct (proj2 (proj2 (NewHekaClient_scheme good_world "tcp://127.0.0.1:5565"
                              "teststats" [])) (mkURL "tcp" "127.0.0.1:5565")
                eq_refl (or_introl eq_refl)) as (h & err & H & _).
    reflexivity.
Defined.

(** ** Stop and the flush loop *)

Lemma emit_all_run (es : list event) (st : state) :
  emit_all es st = (Return tt, mkState (hc st) (trace st ++ es)).
Proof.
  revert st. induction es as [|e es IH]; intros [h tr]; simpl.
  - now rewrite app_nil_r.
  - unfold bind, emit. simpl. rewrite IH. simpl. now rewrite <- app_assoc.
Qed.

Lemma count_map_EvLog (p : event -> bool) (ls : list log_call) :
  p (EvLog (Println [])) = false ->
  (forall l, p (EvLog l) = p (EvLog (Println []))) ->
  count p (map EvLog ls) = 0.
Proof.
  intros H0 H. induction ls as [|l ls IH]; [reflexivity|].
  unfold count in *. simpl. rewrite (H l), H0. exact IH.
Qed.

(** One pass through the loop body: it always comes back, having encoded
    once and called [write] once, with the buffer the encoder left. *)
Lemma flush_trace (w : World) (r : RegistryRef) (stream : bytes) (st : state) :
  exists (new : list event) (msg : Message),
    fst (flush w r stream st) = Return (fst (EncodeMessageStream w msg stream))
    /\ trace (snd (flush w r stream st)) = trace st ++ new
    /\ count is_encode new = 1
    /\ 1 <= count is_dial new + count is_send new
    /\ count is_dial new <= 2
    /\ count is_send new <= 2
    /\ stop (hc (snd (flush w r stream st))) = stop (hc st)
    /\ Forall (sends_only (fst (EncodeMessageStream w msg stream))) new.
Proof.
  destruct st as [h tr].
  unfold flush, bind, get_hc, get_trace. cbn [hc trace].
  rewrite emit_all_run. cbn [hc trace].
  unfold logger, emit, ret. cbn [hc trace].
  match goal with |- context [EncodeMessageStream w ?m stream] =>
    set (msg := m) end.
  assert (Hlogs : forall p, p (EvLog (Println [])) = false ->
            (forall l, p (EvLog l) = p (EvLog (Println []))) ->
            count p (map EvLog (snd (make_message_log (r tr)))) = 0)
    by (intros; now apply count_map_EvLog).
  assert (Hall : forall b ls, Forall (sends_only b) (map EvLog ls))
    by (intros b ls; apply Forall_forall; intros x Hx;
        apply in_map_iff in Hx as (l & <- & _); exact I).
  destruct (EncodeMessageStream w msg stream) as [stream' [e|]] eqn:Henc;
    cbn [fst snd hc trace];
    match goal with |- context [write w stream' ?s] =>
      destruct (write_trace w stream' s) as
        (r0 & new & Hr & Htr & Hd & Hs & H1 & He & Hstop & _ & Hb);
      destruct (write w stream' s) as [o s']
    end;
    cbn [fst snd hc trace] in *; subst o;
    destruct r0 as [e0|]; cbn [fst snd hc trace];
    rewrite Htr, <- ?app_assoc;
    (eexists _, msg; rewrite Henc; cbn [fst snd];
     split; [reflexivity|]; split; [reflexivity|]);
    rewrite ?count_app, ?Hlogs by reflexivity; cbn;
    unfold count in *; cbn;
    (repeat split; try lia; try assumption);
    repeat first [ assumption | apply Hall | apply Forall_nil
                 | apply Forall_cons; [exact I|] | apply Forall_app; split ].
Qed.

Lemma flush_returns (w : World) (r : RegistryRef) (stream : bytes) (st : state) :
  exists stream', flush w r stream st = (Return stream', snd (flush w r stream st)).
Proof.
  destruct (flush_trace w r stream st) as (new & msg & Hr & _).
  destruct (flush w r stream st) as [o st']. simpl in *. subst o. eauto.
Qed.

(** Once [stop] is closed the [select] is ready at once: the body runs one
    more time and the loop returns, whatever the schedule. *)
Lemma LogHeka_from_closed (w : World) (r : RegistryRef) (sched : list wait_event)
    (stream : bytes) (st : state) :
  stop (hc st) = ChanClosed ->
  LogHeka_from w r sched stream st = (Return Exited, snd (flush w r stream st)).
Proof.
  intros H. destruct (flush_returns w r stream st) as (stream' & Hf).
  destruct sched; simpl; rewrite H; unfold bind; rewrite Hf; reflexivity.
Qed.

(** C10: on a client whose stop channel is open, [Stop] returns and leaves
    the channel closed and everything else as it was; a second [Stop]
    panics, as does [Stop] in any state with the channel closed; and the
    loop, started or resumed after the first [Stop], returns, the channel
    still closed. *)
Theorem Stop_single_use (w : World) (r : RegistryRef) (sched : list wait_event)
    (stream : bytes) (st : state) :
  stop (hc st) = ChanOpen ->
  let st1 := snd (Stop st) in
  fst (Stop st) = Return tt
  /\ stop (hc st1) = ChanClosed
  /\ sender (hc st1) = sender (hc st)
  /\ trace st1 = trace st
  /\ Stop st1 = (Panic "close of closed channel", st1)
  /\ (forall st', stop (hc st') = ChanClosed ->
        Stop st' = (Panic "close of closed channel", st'))
  /\ fst (LogHeka_from w r sched stream st1) = Return Exited
  /\ stop (hc (snd (LogHeka_from w r sched stream st1))) = ChanClosed.
Proof.
  destruct st as [[p hn mt s u ch] tr]. cbn [hc stop]. intros ->.
  cbn. repeat split.
  - intros st' H'. unfold Stop. now rewrite H'.
  - now rewrite LogHeka_from_closed.
  - rewrite LogHeka_from_closed by reflexivity. cbn [snd].
    match goal with |- context [flush w r stream ?s0] =>
      destruct (flush_trace w r stream s0)
        as (new & msg & _ & _ & _ & _ & _ & _ & Hs & _)
    end.
    now rewrite Hs.
Qed.

Lemma Stop_single_use_witness :
  stop (hc fresh_state) = ChanOpen
  /\ fst (Stop fresh_state) = Return tt
  /\ Stop (snd (Stop fresh_state)) =
     (Panic "close of closed channel", snd (Stop fresh_state)).
Proof.
  pose proof (Stop_single_use good_world static_registry [] [] fresh_state eq_refl)
    as H.
  cbv zeta in H.
  exact (conj eq_refl (conj (proj1 H) (proj1 (proj2 (proj2 (proj2 (proj2 H))))))).
Defined.

(** C2, the claim as stated, refuted: with [Stop] called before the timer
    has fired once, the loop still builds and encodes a message, dials and
    transmits it, and only then returns. *)
Lemma stop_first_still_flushes :
  let res := LogHeka good_world static_registry 4000000000%Z [StopCalled]
               fresh_state in
  fst res = Return Exited
  /\ trace (snd res) =
     [EvEncode
        (mkMessage (Some [Byte.x2a]) (Some 1400000000000000000%Z)
           (Some "teststats") (Some "go-metrics") (Some 100%Z) (Some "")
           (Some 4242%Z) (Some "web1")
           [mkField "requests" Field_INTEGER "" [42%Z] []])
        None;
      EvLog (Printf "Connecting: %s\n" [LURL (mkURL "tcp" "127.0.0.1:5565")]);
      EvDial "tcp" "127.0.0.1:5565" (Ok 1);
      EvSend 1 [Byte.x1e; Byte.x1f] None]
  /\ ~ (count is_encode (trace (snd res)) = 0 /\ count is_send (trace (snd res)) = 0).
Proof.
  cbv zeta. split; [reflexivity|]. split; [reflexivity|].
  intros [H _]. vm_compute in H. discriminate H.
Qed.

(** C2, amended: when the first thing that happens is [Stop], the loop
    runs its body exactly once more (one encoding, one call of [write],
    which dials or transmits at least once) and then returns, without
    looking at the rest of the schedule. *)
Theorem stop_first_one_flush (w : World) (r : RegistryRef) (d : Z)
    (sched : list wait_event) (st : state) :
  stop (hc st) = ChanOpen ->
  exists new,
    LogHeka w r d (StopCalled :: sched) st =
      (Return Exited, snd (flush w r [] (snd (Stop st))))
    /\ trace (snd (LogHeka w r d (StopCalled :: sched) st)) = trace st ++ new
    /\ count is_encode new = 1
    /\ 1 <= count is_dial new + count is_send new
    /\ count is_dial new <= 2
    /\ count is_send new <= 2.
Proof.
  intros Hopen.
  assert (Heq : LogHeka w r d (StopCalled :: sched) st =
                (Return Exited, snd (flush w r [] (snd (Stop st))))).
  { unfold LogHeka. cbn [LogHeka_from]. rewrite Hopen.
    unfold bind at 1. unfold Stop. rewrite Hopen. cbn [snd].
    match goal with |- context [flush w r [] ?s0] =>
      destruct (flush_returns w r [] s0) as (stream' & Hf)
    end.
    unfold bind. rewrite Hf. reflexivity. }
  rewrite Heq. cbn [snd].
  destruct (flush_trace w r [] (snd (Stop st)))
    as (new & msg & _ & Htr & He & H1 & Hd & Hs & _).
  exists new. rewrite Htr. unfold Stop. rewrite Hopen. cbn [snd trace].
  repeat split; assumption.
Qed.

Lemma stop_first_one_flush_witness :
  stop (hc fresh_state) = ChanOpen
  /\ exists new,
       LogHeka good_world static_registry 4000000000%Z [StopCalled; TimerFired]
         fresh_state =
         (Return Exited, snd (flush good_world static_registry [] (snd (Stop fresh_state))))
       /\ trace (snd (LogHeka good_world static_registry 4000000000%Z
                        [StopCalled; TimerFired] fresh_state)) = trace fresh_state ++ new
       /\ count is_encode new = 1
       /\ 1 <= count is_dial new + count is_send new
       /\ count is_dial new <= 2
       /\ count is_send new <= 2.
Proof.
  split; [reflexivity|].
  exact (stop_first_one_flush good_world static_registry 4000000000%Z [TimerFired]
           fresh_state eq_refl).
Defined.

(** C3: a run of two cycles in which the second message is refused by the
    encoder.  The error is logged and the loop goes on, but [write] is
    still called, with the buffer the encoder left untouched: the bytes of
    the first cycle are transmitted a second time. *)
Theorem encode_error_still_sends :
  let res := LogHeka good_world growing_registry 4000000000%Z
               [TimerFired; TimerFired] fresh_state in
  exists m1 m2,
    fst res = Return Waiting
    /\ List.length (Fields m2) = 2
    /\ EncodeMessageStream good_world m2 [Byte.x1e; Byte.x1f] =
       ([Byte.x1e; Byte.x1f], Some "Message too big")
    /\ trace (snd res) =
       [EvEncode m1 None;
        EvLog (Printf "Connecting: %s\n" [LURL (mkURL "tcp" "127.0.0.1:5565")]);
        EvDial "tcp" "127.0.0.1:5565" (Ok 1);
        EvSend 1 [Byte.x1e; Byte.x1f] None;
        EvEncode m2 (Some "Message too big");
        EvLog (Printf "Inject: [error] encode message: %s\n" [LErr "Message too big"]);
        EvSend 1 [Byte.x1e; Byte.x1f] None].
Proof.
  cbv zeta. eexists _, _.
  split; [reflexivity|]. split; [|split]; [| |vm_compute; reflexivity];
    reflexivity.
Qed.

(** * Further properties of the encoder *)

Lemma each_extend_fields (name : string) (i : metric) :
  exists ls, forall st, each name i st = enc_extend (metric_fields name i) ls st.
Proof.
  destruct (each_extend name i) as (fs & ls & H). exists ls. intros st.
  unfold metric_fields. rewrite (H (empty_Message, [])), Fields_enc_extend.
  apply H.
Qed.

Lemma Each_extend (r : Registry) :
  exists ls, forall st, Each r st = enc_extend (registry_fields r) ls st.
Proof.
  induction r as [|[name i] r (ls2 & IH)].
  - exists []. intros st. simpl. now rewrite enc_extend_nil.
  - destruct (each_extend_fields name i) as (ls1 & H1).
    exists (ls1 ++ ls2). intros st. simpl.
    now rewrite IH, H1, enc_extend_extend.
Qed.

Lemma make_message_with_Fields (r : Registry) :
  make_message r = with_Fields (registry_fields r) empty_Message.
Proof.
  unfold make_message, make_message_log.
  destruct (Each_extend r) as (ls & H). now rewrite H.
Qed.

(** [make_message] of two registries walked one after the other is the
    message of the first followed by that of the second, and the envelope
    of the result is entirely unset. *)
Theorem make_message_concat (r1 r2 : Registry) :
  make_message (r1 ++ r2) =
  mkMessage None None None None None None None None
            (Fields (make_message r1) ++ Fields (make_message r2)).
Proof.
  rewrite !make_message_with_Fields, registry_fields_app. reflexivity.
Qed.

(** Entries of a kind the type switch has no case for leave no trace in
    the message: dropping them from the registry gives the same message. *)
Theorem unknown_kinds_ignored (r : Registry) :
  make_message r = make_message (filter (fun p => negb (is_other (snd p))) r).
Proof.
  rewrite !make_message_with_Fields. f_equal.
  induction r as [|[name i] r IH]; [reflexivity|].
  unfold registry_fields in *. simpl.
  destruct i; simpl; now rewrite IH.
Qed.

(** A Meter [name] adds the INTEGER field [name.count] and then the DOUBLE
    fields [name.one-minute], [name.five-minute], [name.fifteen-minute] and
    [name.mean], with no kind infix, whatever the snapshot holds; inside a
    registry the block sits at the entry's place. *)
Theorem meter_fields (name : string) (m : MeterSnapshot) (r1 r2 : Registry) :
  metric_fields name (Meter m) =
    [mkField (name ++ ".count") Field_INTEGER "" [m_Count m] [];
     mkField (name ++ ".one-minute") Field_DOUBLE "" [] [m_Rate1 m];
     mkField (name ++ ".five-minute") Field_DOUBLE "" [] [m_Rate5 m];
     mkField (name ++ ".fifteen-minute") Field_DOUBLE "" [] [m_Rate15 m];
     mkField (name ++ ".mean") Field_DOUBLE "" [] [m_RateMean m]]
  /\ Fields (make_message (r1 ++ (name, Meter m) :: r2)) =
     Fields (make_message r1) ++ metric_fields name (Meter m)
     ++ Fields (make_message r2).
Proof.
  split; [|apply Fields_make_message_at].
  rewrite metric_fields_Meter. reflexivity.
Qed.

Lemma well_typed_float_fields (pref : string) (l : list (string * float64)) :
  Forall well_typed (map (fun nv => float_field pref (fst nv) (snd nv)) l).
Proof.
  apply Forall_forall. intros f Hin.
  apply in_map_iff in Hin as (nv & <- & _). split; reflexivity.
Qed.

Lemma well_typed_int_fields (pref : string) (c mn mx : int64)
    (repr : string -> string) :
  Forall well_typed (int_fields pref c mn mx repr).
Proof. repeat constructor. Qed.

(** Whatever the registry holds and whatever its snapshots answer, every
    field of the message has exactly one value, stored in the entry that
    its type names, and the other entry is empty. *)
Theorem fields_well_typed (r : Registry) :
  Forall well_typed (Fields (make_message r)).
Proof.
  rewrite Fields_make_message.
  induction r as [|[name i] r IH]; [constructor|].
  unfold registry_fields in *. simpl. apply Forall_app. split; [|exact IH].
  destruct i as [c|v|v|h|m|t|].
  1-3: repeat constructor.
  - rewrite metric_fields_Histogram. apply Forall_app. split.
    + apply well_typed_float_fields.
    + apply well_typed_int_fields.
  - rewrite metric_fields_Meter. constructor.
    + split; reflexivity.
    + apply well_typed_float_fields.
  - rewrite metric_fields_Timer. apply Forall_app. split.
    + apply well_typed_float_fields.
    + apply well_typed_int_fields.
  - constructor.
Qed.

Lemma each_no_log (name : string) (i : metric) (st : enc) :
  answers_enough i -> snd (each name i st) = snd st.
Proof.
  destruct i as [c|v|v|h|m|t|]; cbn [each answers_enough NewField]; intros H;
    try reflexivity.
  - rewrite add_int_fields_extend, add_float_mapping_extend.
    unfold enc_extend. cbn [snd].
    rewrite skipn_all2 by (rewrite length_app; simpl; lia).
    simpl. now rewrite !app_nil_r.
  - rewrite add_int_fields_extend, add_float_mapping_extend.
    unfold enc_extend. cbn [snd].
    rewrite skipn_all2 by (rewrite length_app; simpl; lia).
    simpl. now rewrite !app_nil_r.
Qed.

(** When every histogram and timer of the registry answers the five
    percentiles with at least five values, [make_message] logs nothing:
    no name goes without a value. *)
Theorem make_message_silent (r : Registry) :
  Forall (fun p => answers_enough (snd p)) r ->
  snd (make_message_log r) = [].
Proof.
  assert (H : forall st, Forall (fun p => answers_enough (snd p)) r ->
                         snd (Each r st) = snd st).
  { induction r as [|[name i] r IH]; intros st Hall; [reflexivity|].
    inversion Hall; subst. simpl. rewrite IH by assumption.
    now apply each_no_log. }
  intros Hall. unfold make_message_log. now rewrite H.
Qed.

Lemma make_message_silent_witness :
  Forall (fun p => answers_enough (snd p)) dot_free_registry
  /\ snd (make_message_log dot_free_registry) = [].
Proof.
  assert (H : Forall (fun p => answers_enough (snd p)) dot_free_registry).
  { repeat constructor; simpl; lia. }
  exact (conj H (make_message_silent dot_free_registry H)).
Defined.

(** When [add_float_mapping] gets at least as many values as names, every
    name is encoded with the value at its index, the values beyond the last
    name are dropped, and nothing is logged. *)
Theorem add_float_mapping_surplus_values
    (pref : string) (names : list string) (vals : list float64) (st : enc) :
  List.length names <= List.length vals ->
  let st' := add_float_mapping pref names vals st in
  Fields (fst st') =
    Fields (fst st) ++
    map (fun nv => float_field pref (fst nv) (snd nv))
        (combine names (firstn (List.length names) vals))
  /\ List.length (Fields (fst st')) = List.length (Fields (fst st)) + List.length names
  /\ snd st' = snd st.
Proof.
  intros Hlen st'. subst st'. rewrite add_float_mapping_extend.
  rewrite Fields_enc_extend, <- combine_firstn_l.
  repeat split.
  - rewrite length_app, length_map, length_combine. lia.
  - unfold enc_extend. cbn [snd]. rewrite skipn_all2 by assumption.
    simpl. now rewrite app_nil_r.
Qed.

Lemma add_float_mapping_surplus_values_witness :
  List.length meter_names <= List.length [1; 2; 3; 4; 5; 6]%float
  /\ let st' := add_float_mapping "hits" meter_names [1; 2; 3; 4; 5; 6]%float
                  (empty_Message, []) in
     Fields (fst st') =
       [] ++ map (fun nv => float_field "hits" (fst nv) (snd nv))
                 (combine meter_names (firstn 4 [1; 2; 3; 4; 5; 6]%float))
     /\ List.length (Fields (fst st')) = 0 + 4
     /\ snd st' = [].
Proof.
  split.
  - simpl. lia.
  - apply (add_float_mapping_surplus_values "hits" meter_names
             [1; 2; 3; 4; 5; 6]%float (empty_Message, [])).
    simpl. lia.
Defined.

Lemma four_values {A : Type} (d : A) (l : list A) :
  List.length l = 4 -> l = [nth 0 l d; nth 1 l d; nth 2 l d; nth 3 l d].
Proof.
  destruct l as [|a [|b [|c [|e [|f l]]]]]; simpl; intros H;
    try discriminate H; reflexivity.
Qed.

(** Names and values are paired by position only.  A histogram whose
    snapshot answers with four percentiles instead of five gets its mean
    filed under [999-percentile] and its standard deviation under [mean];
    [std-dev] gets no field, only a logged line; count, min and max follow
    as usual. *)
Theorem histogram_short_answer_shifts (name : string) (h : HistogramSnapshot)
    (st : enc) :
  List.length (h_Percentiles h canonical_percentiles) = 4 ->
  let p i := nth i (h_Percentiles h canonical_percentiles) 0%float in
  metric_fields name (Histogram h) =
    [mkField (name ++ ".histogram.50-percentile") Field_DOUBLE "" [] [p 0];
     mkField (name ++ ".histogram.75-percentile") Field_DOUBLE "" [] [p 1];
     mkField (name ++ ".histogram.95-percentile") Field_DOUBLE "" [] [p 2];
     mkField (name ++ ".histogram.99-percentile") Field_DOUBLE "" [] [p 3];
     mkField (name ++ ".histogram.999-percentile") Field_DOUBLE "" [] [h_Mean h];
     mkField (name ++ ".histogram.mean") Field_DOUBLE "" [] [h_StdDev h];
     mkField (name ++ ".histogram.count") Field_INTEGER
             (name ++ ".histogram.count") [h_Count h] [];
     mkField (name ++ ".histogram.min") Field_INTEGER
             (name ++ ".histogram.min") [h_Min h] [];
     mkField (name ++ ".histogram.max") Field_INTEGER
             (name ++ ".histogram.max") [h_Max h] []]
  /\ snd (each name (Histogram h) st) =
     snd st ++ [Println [LStr "skipping: %s no value\n";
                         LStr (name ++ ".histogram.std-dev")]].
Proof.
  intros H4 p. subst p. split.
  - rewrite metric_fields_Histogram.
    rewrite (four_values 0%float _ H4) at 1.
    unfold histogram_names, int_fields, float_field, int_field.
    cbn [app combine map fst snd]. rewrite !dotted_assoc. reflexivity.
  - cbn [each]. rewrite add_int_fields_extend, add_float_mapping_extend.
    unfold enc_extend. cbn [snd]. rewrite length_app, H4.
    unfold histogram_names, skip_line. cbn [List.length Nat.add skipn map].
    rewrite dotted_assoc, app_nil_r. reflexivity.
Qed.

Lemma histogram_short_answer_shifts_witness :
  List.length (h_Percentiles short_histogram canonical_percentiles) = 4
  /\ nth_error (metric_fields "x" (Histogram short_histogram)) 4 =
     Some (mkField "x.histogram.999-percentile" Field_DOUBLE "" [] [50%float])
  /\ nth_error (metric_fields "x" (Histogram short_histogram)) 5 =
     Some (mkField "x.histogram.mean" Field_DOUBLE "" [] [20%float]).
Proof.
  pose proof (histogram_short_answer_shifts "x" short_histogram
                (empty_Message, []) eq_refl) as H.
  cbv zeta in H. destruct H as [H _].
  split; [reflexivity|]. rewrite H. split; reflexivity.
Defined.

(** Every field of a message can be traced to an entry of the registry:
    its name begins with that entry's name. *)
Theorem field_names_extend_metric_names (r : Registry) (f : Field) :
  In f (Fields (make_message r)) ->
  exists name i, In (name, i) r /\ String.prefix name (Name f) = true.
Proof.
  rewrite Fields_make_message.
  induction r as [|[name i] r IH]; simpl; [tauto|].
  unfold registry_fields in *. simpl. rewrite in_app_iff. intros [Hin|Hin].
  - exists name, i. split; [now left|].
    destruct (metric_names_shape name i) as (tails & Heq & _).
    assert (Hn : In (Name f) (map Name (metric_fields name i)))
      by now apply in_map.
    rewrite Heq in Hn. apply in_map_iff in Hn as (tail & <- & _).
    apply prefix_append.
  - destruct (IH Hin) as (n & j & Hr & Hp). exists n, j. split; [now right|exact Hp].
Qed.

Lemma field_names_extend_metric_names_witness :
  exists name i,
    In (name, i) dot_free_registry
    /\ String.prefix name "latency.histogram.mean" = true.
Proof.
  apply (field_names_extend_metric_names dot_free_registry
           (mkField "latency.histogram.mean" Field_DOUBLE "" [] [50%float])).
  vm_compute. tauto.
Defined.

(** * Further properties of the sender *)

(** Opens a goal about [write] along every path through it. *)
Ltac run_write :=
  unfold write, reconnect, sender_SendMessage, bind, get_hc, get_trace,
    set_sender, logger, emit, ret, panic;
  run_network; cbn; rewrite <- ?app_assoc; cbn [app].

Lemma write_effects (w : World) (b : bytes) (st : state) :
  exists new,
    trace (snd (write w b st)) = trace st ++ new
    /\ held (hc st) + count is_dial_ok new =
       count is_close new + held (hc (snd (write w b st)))
    /\ Forall (dials_to (connect_s (hc st))) new
    /\ hc (snd (write w b st)) =
       with_sender (sender (hc (snd (write w b st)))) (hc st)
    /\ Forall (fun e => is_encode e = false) new.
Proof.
  destruct st as [[p hn mt [c|] u ch] tr]; run_write;
    (eexists; split; [reflexivity|]);
    cbn; repeat split; repeat constructor.
Qed.

(** [write] never leaks a connection and never holds two: the connections
    held before the call plus those the dials of the call gave equal the
    connections the call closed plus those held after it. *)
Theorem write_connection_balance (w : World) (b : bytes) (st : state) :
  exists new,
    trace (snd (write w b st)) = trace st ++ new
    /\ held (hc st) + count is_dial_ok new =
       count is_close new + held (hc (snd (write w b st))).
Proof.
  destruct (write_effects w b st) as (new & Htr & Hbal & _).
  exists new. split; assumption.
Qed.

(** [write] changes nothing of the client but [sender], and every dial it
    makes goes to the scheme and host of the client's connection string. *)
Theorem write_dials_configured_endpoint (w : World) (b : bytes) (st : state) :
  exists new,
    trace (snd (write w b st)) = trace st ++ new
    /\ Forall (dials_to (connect_s (hc st))) new
    /\ hc (snd (write w b st)) =
       with_sender (sender (hc (snd (write w b st)))) (hc st).
Proof.
  destruct (write_effects w b st) as (new & Htr & _ & Hd & Hhc & _).
  exists new. repeat split; assumption.
Qed.

(** Picks, for a trace that is [tr] followed by a literal list, all of that
    list but its last event. *)
Ltac all_but_last tr :=
  match goal with
  | |- context [@app event tr ?l] => exists (removelast l)
  end.

Ltac all_but_last_two tr :=
  match goal with
  | |- context [@app event tr ?l] => exists (removelast (removelast l))
  end.

(** What the result of [write] tells.  [nil]: the last thing the call did
    was a successful transmission of [b] over the connection the client now
    holds.  An error: either it is the error of a dial, the client is left
    Disconnected and the failed dial and its log line end the call; or it is
    the error of the second transmission of the call, made over the
    connection the client still holds.  [write] never panics. *)
Theorem write_result_meaning (w : World) (b : bytes) (st : state) :
  match fst (write w b st) with
  | Return None =>
      exists pre c,
        trace (snd (write w b st)) = trace st ++ pre ++ [EvSend c b None]
        /\ sender (hc (snd (write w b st))) = Some c
  | Return (Some e) =>
      (exists pre,
         trace (snd (write w b st)) =
           trace st ++ pre ++
           [EvDial (Scheme (connect_s (hc st))) (Host (connect_s (hc st))) (Err e);
            EvLog (Printf "Err Connecting: %s %v\n"
                          [LURL (connect_s (hc st)); LErr e])]
         /\ sender (hc (snd (write w b st))) = None
         /\ count is_send pre <= 1)
      \/ (exists pre c,
            trace (snd (write w b st)) = trace st ++ pre ++ [EvSend c b (Some e)]
            /\ sender (hc (snd (write w b st))) = Some c
            /\ count is_send pre = 1)
  | Panic _ => False
  end.
Proof.
  destruct st as [[p hn mt [c|] u ch] tr]; run_write.
  all: try (all_but_last tr; eexists; split; reflexivity).
  all: try (left; all_but_last_two tr; cbn; repeat split; lia).
  all: right; all_but_last tr; eexists; cbn; repeat split.
Qed.

(** A transmission that works over the held connection is all [write]
    does: it does not dial, close or log, and the client is unchanged. *)
Theorem write_reuses_connection (w : World) (b : bytes) (st : state) (c : conn) :
  sender (hc st) = Some c ->
  SendMessage w (trace st) c b = None ->
  write w b st = (Return None, mkState (hc st) (trace st ++ [EvSend c b None])).
Proof.
  destruct st as [[p hn mt s u ch] tr]. cbn [hc sender trace]. intros -> Hs.
  unfold write, sender_SendMessage, bind, get_hc, get_trace, emit, ret.
  cbn. rewrite Hs. reflexivity.
Qed.

Lemma write_reuses_connection_witness :
  write good_world payload (mkState (with_sender (Some 7) fresh_client) []) =
  (Return None,
   mkState (with_sender (Some 7) fresh_client) [EvSend 7 payload None]).
Proof.
  exact (write_reuses_connection good_world payload
           (mkState (with_sender (Some 7) fresh_client) []) 7 eq_refl eq_refl).
Defined.

(** When a Disconnected client cannot connect, [write] returns the error of
    the dial without attempting any transmission and the client stays
    Disconnected; the call logs the attempt and its failure. *)
Theorem write_connect_failure (w : World) (b : bytes) (st : state) (e : error) :
  sender (hc st) = None ->
  NewNetworkSender w
    (trace st ++ [EvLog (Printf "Connecting: %s\n" [LURL (connect_s (hc st))])])
    (Scheme (connect_s (hc st))) (Host (connect_s (hc st))) = Err e ->
  write w b st =
    (Return (Some e),
     mkState (hc st)
       (trace st ++
        [EvLog (Printf "Connecting: %s\n" [LURL (connect_s (hc st))]);
         EvDial (Scheme (connect_s (hc st))) (Host (connect_s (hc st))) (Err e);
         EvLog (Printf "Err Connecting: %s %v\n"
                       [LURL (connect_s (hc st)); LErr e])])).
Proof.
  destruct st as [[p hn mt s u ch] tr]. cbn [hc sender trace connect_s].
  intros -> Hd.
  unfold write, reconnect, bind, get_hc, get_trace, set_sender, logger, emit, ret.
  cbn. rewrite Hd. cbn. now rewrite <- !app_assoc.
Qed.

Lemma write_connect_failure_witness :
  fst (write (scripted_world (fun _ => Err "connection refused") (fun _ => None))
             payload fresh_state) = Return (Some "connection refused")
  /\ count is_send
       (trace (snd (write (scripted_world (fun _ => Err "connection refused")
                                          (fun _ => None))
                          payload fresh_state))) = 0.
Proof.
  rewrite (write_connect_failure
             (scripted_world (fun _ => Err "connection refused") (fun _ => None))
             payload fresh_state "connection refused" eq_refl eq_refl).
  split; reflexivity.
Defined.

(** Uses the health of the network on every answer met along a path. *)
Ltac use_health Hd Hs :=
  repeat match goal with
    | H : NewNetworkSender ?w ?t ?s ?h = _ |- _ =>
        let c := fresh "c" in
        let Hc := fresh "Hc" in
        let Hg := fresh "Hg" in
        destruct (Hd t s h) as (c & Hc & Hg);
        rewrite Hc in H; clear Hc; inversion H; subst; clear H
    end;
  repeat match goal with
    | H : SendMessage ?w ?t ?c ?b = Some _, Hg : _ ?c |- _ =>
        rewrite (Hs t c b Hg) in H; discriminate H
    end.

(** On a healthy network [write] succeeds within the call, from any state:
    Disconnected, or holding a connection that no longer works.  It dials
    at most once and ends Connected. *)
Theorem write_heals (w : World) (good : conn -> Prop) (b : bytes) (st : state) :
  healthy w good ->
  fst (write w b st) = Return None
  /\ Connected (hc (snd (write w b st)))
  /\ exists new,
       trace (snd (write w b st)) = trace st ++ new
       /\ count is_dial new <= 1.
Proof.
  intros [Hd Hs].
  destruct st as [[p hn mt [c|] u ch] tr]; unfold Connected; run_write;
    use_health Hd Hs;
    (split; [reflexivity|]; split; [discriminate|]);
    eexists; (split; [reflexivity|]); cbn; lia.
Qed.

Lemma write_heals_witness :
  healthy stale_world (fun c => c <> 0)
  /\ fst (write stale_world payload stale_state) = Return None
  /\ sender (hc (snd (write stale_world payload stale_state))) = Some 1.
Proof.
  assert (H : healthy stale_world (fun c => c <> 0)).
  { split.
    - intros tr s h. eexists. split; [reflexivity|]. discriminate.
    - intros tr [|c] b Hc; [now elim Hc | reflexivity]. }
  split; [exact H|].
  split; [exact (proj1 (write_heals stale_world _ payload stale_state H))|].
  reflexivity.
Defined.

(** * Further properties of the flush loop *)

Lemma stamped_not_encode (t : string) (p : int32) (hn : string) (e : event) :
  is_encode e = false -> stamped t p hn e.
Proof. destruct e; simpl; intros H; try exact I. discriminate H. Qed.

Lemma Forall_stamped (t : string) (p : int32) (hn : string) (l : list event) :
  Forall (fun e => is_encode e = false) l -> Forall (stamped t p hn) l.
Proof.
  intros H. eapply Forall_impl; [|exact H]. apply stamped_not_encode.
Qed.

(** One pass through the loop body, seen from the connection and from the
    messages it encodes. *)
Lemma flush_effects (w : World) (r : RegistryRef) (stream : bytes) (st : state) :
  exists new,
    trace (snd (flush w r stream st)) = trace st ++ new
    /\ held (hc st) + count is_dial_ok new =
       count is_close new + held (hc (snd (flush w r stream st)))
    /\ Forall (dials_to (connect_s (hc st))) new
    /\ hc (snd (flush w r stream st)) =
       with_sender (sender (hc (snd (flush w r stream st)))) (hc st)
    /\ Forall (stamped (msgtype (hc st)) (pid (hc st)) (hostname (hc st))) new.
Proof.
  destruct st as [h tr].
  unfold flush, bind, get_hc, get_trace. cbn [hc trace].
  rewrite emit_all_run. cbn [hc trace].
  unfold logger, emit, ret. cbn [hc trace].
  match goal with |- context [EncodeMessageStream w ?m stream] =>
    set (msg := m) end.
  assert (Hst : stamped (msgtype h) (pid h) (hostname h)
                  (EvEncode msg (snd (EncodeMessageStream w msg stream))))
    by (cbn; repeat split; discriminate).
  assert (Hlogs : forall p, p (EvLog (Println [])) = false ->
            (forall l, p (EvLog l) = p (EvLog (Println []))) ->
            count p (map EvLog (snd (make_message_log (r tr)))) = 0)
    by (intros; now apply count_map_EvLog).
  assert (Hall : forall (P : event -> Prop) ls,
            (forall l, P (EvLog l)) -> Forall P (map EvLog ls))
    by (intros P ls HP; apply Forall_forall; intros x Hx;
        apply in_map_iff in Hx as (l & <- & _); apply HP).
  destruct (EncodeMessageStream w msg stream) as [stream' [e|]] eqn:Henc;
    cbn [fst snd hc trace] in *;
    match goal with |- context [write w stream' ?s] =>
      destruct (write_effects w stream' s) as (new & Htr & Hbal & Hd & Hhc & Hne);
      destruct (write_trace w stream' s) as (r0 & new' & Hr & _);
      destruct (write w stream' s) as [o s']
    end;
    cbn [fst snd hc trace] in *; subst o;
    apply Forall_stamped with (t := msgtype h) (p := pid h) (hn := hostname h) in Hne;
    destruct r0 as [e0|]; cbn [fst snd hc trace];
    rewrite Htr, <- ?app_assoc;
    (eexists; split; [reflexivity|]);
    rewrite ?count_app, ?Hlogs by reflexivity; cbn;
    unfold count in *; cbn;
    (repeat split; try lia; try assumption);
    repeat first [ assumption | apply Forall_nil
                 | apply Hall; intros; exact I
                 | apply Forall_cons; [first [exact I | exact Hst]|]
                 | apply Forall_app; split ].
Qed.

(** A property of runs that holds of doing nothing, of one pass through
    the body and of [Stop], and that composes, holds of every run of the
    loop. *)
Lemma LogHeka_from_steps (w : World) (r : RegistryRef) (P : state -> state -> Prop) :
  (forall st, P st st) ->
  (forall a b c, P a b -> P b c -> P a c) ->
  (forall stream st, P st (snd (flush w r stream st))) ->
  (forall st, P st (snd (Stop st))) ->
  forall sched stream st, P st (snd (LogHeka_from w r sched stream st)).
Proof.
  intros Hrefl Htrans Hflush Hstop.
  assert (Hlast : forall stream st,
            P st (snd ((bind (flush w r stream) (fun _ => ret Exited)) st))).
  { intros stream st. unfold bind.
    destruct (flush_returns w r stream st) as (s' & Hf). rewrite Hf.
    apply Hflush. }
  induction sched as [|ev sched IH]; intros stream st.
  - simpl. destruct (stop (hc st)); try apply Hrefl. apply Hlast.
  - assert (HS : P st (snd ((bind Stop (fun _ => bind (flush w r stream)
                                                   (fun _ => ret Exited))) st))).
    { unfold bind at 1. specialize (Hstop st).
      destruct (Stop st) as [[[]|msg] st1]; cbn [snd] in *.
      - eapply Htrans; [exact Hstop | apply Hlast].
      - exact Hstop. }
    assert (HT : P st (snd ((bind (flush w r stream)
                                  (fun stream0 => LogHeka_from w r sched stream0)) st))).
    { unfold bind. destruct (flush_returns w r stream st) as (s' & Hf).
      rewrite Hf. eapply Htrans; [apply (Hflush stream st) | apply IH]. }
    cbn [LogHeka_from].
    destruct (stop (hc st)); destruct ev;
      first [exact HS | exact HT | apply Hlast].
Qed.

(** Over a whole run of the loop, however long and however it ends, no
    connection is leaked: connections held at the start plus connections
    the dials gave equal connections closed plus connections held at the
    end (which is one at most). *)
Theorem LogHeka_connection_balance (w : World) (r : RegistryRef) (d : Z)
    (sched : list wait_event) (st : state) :
  exists new,
    trace (snd (LogHeka w r d sched st)) = trace st ++ new
    /\ held (hc st) + count is_dial_ok new =
       count is_close new + held (hc (snd (LogHeka w r d sched st)))
    /\ held (hc (snd (LogHeka w r d sched st))) <= 1.
Proof.
  assert (H : exists new,
             trace (snd (LogHeka w r d sched st)) = trace st ++ new
             /\ held (hc st) + count is_dial_ok new =
                count is_close new + held (hc (snd (LogHeka w r d sched st)))).
  { unfold LogHeka.
    apply (LogHeka_from_steps w r
             (fun a b => exists new,
                  trace b = trace a ++ new
                  /\ held (hc a) + count is_dial_ok new =
                     count is_close new + held (hc b))).
    - intros a. exists []. rewrite app_nil_r. split; [reflexivity|]. cbn. lia.
    - intros a b c (n1 & Ht1 & Hb1) (n2 & Ht2 & Hb2). exists (n1 ++ n2).
      rewrite Ht2, Ht1, app_assoc, !count_app. split; [reflexivity | lia].
    - intros stream a.
      destruct (flush_effects w r stream a) as (new & Htr & Hbal & _).
      exists new. split; assumption.
    - intros a. exists []. rewrite app_nil_r. unfold Stop.
      destruct (stop (hc a)); unfold held; cbn;
        destruct (sender (hc a)); split; reflexivity. }
  destruct H as (new & Htr & Hbal). exists new. repeat split; try assumption.
  unfold held. destruct (sender _); lia.
Qed.

(** Every message the loop hands to the encoder carries the envelope of
    the client: logger ["go-metrics"], the caller's type label, the pid and
    hostname taken at construction, severity 100, an empty payload, a
    timestamp and a uuid.  Every dial of the run goes to the client's
    connection string, and none of these labels changes during the run. *)
Theorem LogHeka_envelope (w : World) (r : RegistryRef) (d : Z)
    (sched : list wait_event) (st : state) :
  exists new,
    trace (snd (LogHeka w r d sched st)) = trace st ++ new
    /\ Forall (stamped (msgtype (hc st)) (pid (hc st)) (hostname (hc st))) new
    /\ Forall (dials_to (connect_s (hc st))) new
    /\ msgtype (hc (snd (LogHeka w r d sched st))) = msgtype (hc st)
    /\ pid (hc (snd (LogHeka w r d sched st))) = pid (hc st)
    /\ hostname (hc (snd (LogHeka w r d sched st))) = hostname (hc st)
    /\ connect_s (hc (snd (LogHeka w r d sched st))) = connect_s (hc st).
Proof.
  unfold LogHeka.
  apply (LogHeka_from_steps w r
           (fun a b => exists new,
                trace b = trace a ++ new
                /\ Forall (stamped (msgtype (hc a)) (pid (hc a)) (hostname (hc a))) new
                /\ Forall (dials_to (connect_s (hc a))) new
                /\ msgtype (hc b) = msgtype (hc a)
                /\ pid (hc b) = pid (hc a)
                /\ hostname (hc b) = hostname (hc a)
                /\ connect_s (hc b) = connect_s (hc a))).
  - intros a. exists []. rewrite app_nil_r. repeat split; constructor.
  - intros a b c (n1 & Ht1 & Hs1 & Hd1 & Hm1 & Hp1 & Hh1 & Hc1)
                 (n2 & Ht2 & Hs2 & Hd2 & Hm2 & Hp2 & Hh2 & Hc2).
    exists (n1 ++ n2). rewrite Hm1, Hp1, Hh1, Hc1 in *.
    rewrite Ht2, Ht1, app_assoc.
    repeat split; try assumption; apply Forall_app; split; assumption.
  - intros stream a.
    destruct (flush_effects w r stream a) as (new & Htr & _ & Hd & Hhc & Hs).
    exists new. rewrite Hhc. repeat split; assumption.
  - intros a. exists []. rewrite app_nil_r. unfold Stop.
    destruct (stop (hc a)); cbn; repeat split; constructor.
Qed.

Lemma LogHeka_from_timers (w : World) (r : RegistryRef) :
  forall (n : nat) (stream : bytes) (st : state),
    stop (hc st) = ChanOpen ->
    exists new,
      fst (LogHeka_from w r (repeat TimerFired n) stream st) = Return Waiting
      /\ trace (snd (LogHeka_from w r (repeat TimerFired n) stream st)) =
         trace st ++ new
      /\ stop (hc (snd (LogHeka_from w r (repeat TimerFired n) stream st))) = ChanOpen
      /\ count is_encode new = n
      /\ count is_dial new <= 2 * n
      /\ count is_send new <= 2 * n
      /\ n <= count is_dial new + count is_send new.
Proof.
  induction n as [|n IH]; intros stream st Hopen.
  - simpl. rewrite Hopen. exists []. rewrite app_nil_r. cbn.
    repeat split; auto.
  - cbn [repeat LogHeka_from]. rewrite Hopen. unfold bind.
    destruct (flush_returns w r stream st) as (s' & Hf). rewrite Hf.
    destruct (flush_trace w r stream st)
      as (n1 & msg & _ & Ht1 & He1 & H1 & Hd1 & Hs1 & Hstop & _).
    rewrite Hopen in Hstop.
    destruct (IH s' (snd (flush w r stream st)) Hstop)
      as (n2 & Hr & Ht2 & Hst2 & He2 & Hd2 & Hs2 & H2).
    exists (n1 ++ n2). rewrite Hr, Ht2, Ht1, app_assoc, !count_app.
    repeat split; try assumption; lia.
Qed.

Lemma LogHeka_from_stop_open (w : World) (r : RegistryRef)
    (rest : list wait_event) (stream : bytes) (st : state) :
  stop (hc st) = ChanOpen ->
  LogHeka_from w r (StopCalled :: rest) stream st =
  (Return Exited,
   snd (flush w r stream (mkState (with_stop ChanClosed (hc st)) (trace st)))).
Proof.
  intros Hopen. cbn [LogHeka_from]. rewrite Hopen.
  unfold bind at 1. unfold Stop. rewrite Hopen.
  destruct (flush_returns w r stream
              (mkState (with_stop ChanClosed (hc st)) (trace st))) as (s' & Hf).
  unfold bind. rewrite Hf. reflexivity.
Qed.

Lemma LogHeka_from_timers_stop (w : World) (r : RegistryRef)
    (rest : list wait_event) :
  forall (n : nat) (stream : bytes) (st : state),
    stop (hc st) = ChanOpen ->
    exists new,
      fst (LogHeka_from w r (repeat TimerFired n ++ StopCalled :: rest) stream st) =
        Return Exited
      /\ trace (snd (LogHeka_from w r (repeat TimerFired n ++ StopCalled :: rest)
                       stream st)) = trace st ++ new
      /\ count is_encode new = S n
      /\ count is_dial new <= 2 * S n
      /\ count is_send new <= 2 * S n.
Proof.
  induction n as [|n IH]; intros stream st Hopen.
  - cbn [repeat app]. rewrite LogHeka_from_stop_open by assumption.
    cbn [fst snd].
    destruct (flush_trace w r stream
                (mkState (with_stop ChanClosed (hc st)) (trace st)))
      as (n1 & msg & _ & Ht1 & He1 & H1 & Hd1 & Hs1 & _).
    cbn [trace] in Ht1.
    exists n1. repeat split; try assumption; lia.
  - cbn [repeat app LogHeka_from]. rewrite Hopen. unfold bind.
    destruct (flush_returns w r stream st) as (s' & Hf). rewrite Hf.
    destruct (flush_trace w r stream st)
      as (n1 & msg & _ & Ht1 & He1 & H1 & Hd1 & Hs1 & Hstop & _).
    rewrite Hopen in Hstop.
    destruct (IH s' (snd (flush w r stream st)) Hstop)
      as (n2 & Hr & Ht2 & He2 & Hd2 & Hs2).
    exists (n1 ++ n2). rewrite Hr, Ht2, Ht1, app_assoc, !count_app.
    repeat split; try assumption; lia.
Qed.

(** The loop runs its body once per timer and once more for the stop, and
    nothing else ends it.  With the stop channel open: after [n] timers and
    no stop it is still waiting, having encoded [n] messages and made
    between [n] and [4 n] network attempts in all (at most [2 n] dials and
    [2 n] transmissions), whatever failed on the way; after [n] timers and
    a stop it has returned, having encoded [n + 1] messages, whatever the
    schedule held beyond the stop. *)
Theorem LogHeka_one_flush_per_wakeup (w : World) (r : RegistryRef) (d : Z)
    (n : nat) (rest : list wait_event) (st : state) :
  stop (hc st) = ChanOpen ->
  (exists new,
     fst (LogHeka w r d (repeat TimerFired n) st) = Return Waiting
     /\ trace (snd (LogHeka w r d (repeat TimerFired n) st)) = trace st ++ new
     /\ count is_encode new = n
     /\ count is_dial new <= 2 * n
     /\ count is_send new <= 2 * n
     /\ n <= count is_dial new + count is_send new)
  /\ (exists new,
        fst (LogHeka w r d (repeat TimerFired n ++ StopCalled :: rest) st) =
          Return Exited
        /\ trace (snd (LogHeka w r d (repeat TimerFired n ++ StopCalled :: rest) st)) =
           trace st ++ new
        /\ count is_encode new = S n
        /\ count is_dial new <= 2 * S n
        /\ count is_send new <= 2 * S n).
Proof.
  intros Hopen. unfold LogHeka. split.
  - destruct (LogHeka_from_timers w r n [] st Hopen)
      as (new & Hr & Ht & _ & He & Hd & Hs & H1).
    exists new. repeat split; assumption.
  - apply LogHeka_from_timers_stop. exact Hopen.
Qed.

Lemma LogHeka_one_flush_per_wakeup_witness :
  stop (hc fresh_state) = ChanOpen
  /\ fst (LogHeka dead_peer_world static_registry 4000000000%Z
            (repeat TimerFired 3) fresh_state) = Return Waiting
  /\ fst (LogHeka dead_peer_world static_registry 4000000000%Z
            (repeat TimerFired 3 ++ [StopCalled; TimerFired]) fresh_state) =
     Return Exited.
Proof.
  pose proof (LogHeka_one_flush_per_wakeup dead_peer_world static_registry
                4000000000%Z 3 [TimerFired] fresh_state eq_refl) as [H1 H2].
  destruct H1 as (n1 & Hr1 & _). destruct H2 as (n2 & Hr2 & _).
  exact (conj eq_refl (conj Hr1 Hr2)).
Defined.

(** * Further properties of construction *)

(** When the connection string is fine but [os.Hostname()] fails,
    [NewHekaClient] returns a complete client, with the hostname
    ["<no hostname>"], and beside it the error of [os.Hostname()]: the
    named result [err] is not cleared before the final [return]. *)
Theorem NewHekaClient_hostname_failure (w : World) (connect type_label : string)
    (tr : list event) (u : URL) (e : error) :
  ParseRequestURI w connect = Ok u ->
  Scheme u = "tcp" \/ Scheme u = "udp" ->
  os_Hostname w = Err e ->
  NewHekaClient w connect type_label tr =
    (Return (Some (mkHekaClient (to_int32 (Getpid w)) "<no hostname>" type_label
                                None u ChanOpen),
             Some e),
     tr).
Proof.
  intros Hp Hs Hh. unfold NewHekaClient. rewrite Hp, Hh.
  assert (Hb : ((Scheme u =? "tcp") || (Scheme u =? "udp"))%string = true).
  { apply orb_true_iff. destruct Hs as [Hs|Hs]; [left|right];
      now apply String.eqb_eq. }
  now rewrite Hb.
Qed.

Lemma NewHekaClient_hostname_failure_witness :
  NewHekaClient nameless_world "udp://10.0.0.1:5565" "teststats" [] =
    (Return (Some (mkHekaClient 5%Z "<no hostname>" "teststats" None
                                (mkURL "udp" "10.0.0.1:5565") ChanOpen),
             Some "hostname: not available"),
     []).
Proof.
  exact (NewHekaClient_hostname_failure nameless_world "udp://10.0.0.1:5565"
           "teststats" [] (mkURL "udp" "10.0.0.1:5565") "hostname: not available"
           eq_refl (or_intror eq_refl) eq_refl).
Defined.

(** The pid a constructed client carries always fits 32 signed bits, agrees
    with [os.Getpid()] modulo [2^32], and is [os.Getpid()] itself whenever
    that fits. *)
Theorem NewHekaClient_pid (w : World) (connect type_label : string)
    (tr tr' : list event) (h : HekaClient) (err : option error) :
  NewHekaClient w connect type_label tr = (Return (Some h, err), tr') ->
  (- 2147483648 <= pid h < 2147483648)%Z
  /\ ((pid h - Getpid w) mod 4294967296 = 0)%Z
  /\ ((- 2147483648 <= Getpid w < 2147483648)%Z -> pid h = Getpid w).
Proof.
  unfold NewHekaClient.
  destruct (ParseRequestURI w connect) as [u|e]; [|discriminate].
  destruct ((Scheme u =? "tcp") || (Scheme u =? "udp"))%string; [|discriminate].
  destruct (os_Hostname w); intros [= <- _ _]; cbn [pid]; unfold to_int32.
  all: pose proof (Z.mod_pos_bound (Getpid w + 2147483648) 4294967296 eq_refl);
       pose proof (Z.div_mod (Getpid w + 2147483648) 4294967296 ltac:(lia));
       repeat split; try lia.
  all: try (replace ((Getpid w + 2147483648) mod 4294967296 - 2147483648 - Getpid w)%Z
              with ((- ((Getpid w + 2147483648) / 4294967296)) * 4294967296)%Z by lia;
            apply Z.mod_mul; lia).
  all: intros Hr; rewrite Z.mod_small by lia; lia.
Qed.

Lemma NewHekaClient_pid_witness :
  (- 2147483648 <= 5 < 2147483648)%Z
  /\ ((5 - Getpid nameless_world) mod 4294967296 = 0)%Z.
Proof.
  pose proof (NewHekaClient_pid nameless_world "udp://10.0.0.1:5565" "teststats"
                [] [] _ _ eq_refl) as H.
  exact (conj (proj1 H) (proj1 (proj2 H))).
Defined.

(** * The buffer between passes *)

(** One pass encodes the registry as [Each] walks it at the start of the
    pass, hands the encoder the buffer kept from the pass before, transmits
    nothing but what the encoder left in that buffer, and keeps it for the
    next pass, whether or not the encoder reported an error. *)
Theorem flush_message (w : World) (r : RegistryRef) (stream : bytes) (st : state) :
  exists new msg,
    fst (flush w r stream st) = Return (fst (EncodeMessageStream w msg stream))
    /\ trace (snd (flush w r stream st)) = trace st ++ new
    /\ Fields msg = Fields (make_message (r (trace st)))
    /\ In (EvEncode msg (snd (EncodeMessageStream w msg stream))) new
    /\ Forall (sends_only (fst (EncodeMessageStream w msg stream))) new.
Proof.
  destruct st as [h tr].
  unfold flush, bind, get_hc, get_trace. cbn [hc trace].
  rewrite emit_all_run. cbn [hc trace].
  unfold logger, emit, ret. cbn [hc trace].
  match goal with |- context [EncodeMessageStream w ?m stream] =>
    set (msg := m) end.
  assert (Hall : forall b ls, Forall (sends_only b) (map EvLog ls))
    by (intros b ls; apply Forall_forall; intros x Hx;
        apply in_map_iff in Hx as (l & <- & _); exact I).
  destruct (EncodeMessageStream w msg stream) as [stream' [e|]] eqn:Henc;
    cbn [fst snd hc trace];
    match goal with |- context [write w stream' ?s] =>
      destruct (write_trace w stream' s) as
        (r0 & new & Hr & Htr & _ & _ & _ & _ & _ & _ & Hb);
      destruct (write w stream' s) as [o s']
    end;
    cbn [fst snd hc trace] in *; subst o;
    destruct r0 as [e0|]; cbn [fst snd hc trace];
    rewrite Htr, <- ?app_assoc;
    (eexists _, msg; rewrite Henc; cbn [fst snd];
     split; [reflexivity|]; split; [reflexivity|]; split; [reflexivity|]);
    (split; [apply in_or_app; right; left; reflexivity|]);
    repeat first [ assumption | apply Hall | apply Forall_nil
                 | apply Forall_cons; [exact I|] | apply Forall_app; split ].
Qed.
